(** * Depth-first exploration engine: embedding and properties

    The repository holds four Python programs built on one small search
    engine ([Problem], [Node], [expand], [path_states]):

    - [DFS.py]: single-result depth-first search over a graph problem,
    - [find_longest_path.py]: backtracking search for the longest ascending
      path in a character matrix,
    - [flood_fill.py]: recursive in-place flood fill,
    - [word_matrix.py]: stack-driven word search pruned by dictionary
      prefixes.

    Part I embeds the programs; Part II states and proves their properties. *)

From Stdlib Require Import ZArith Lia Ascii.
From stdpp Require Import base option list sets gmap strings.

Local Open Scope Z_scope.

(* [Node] is nested under [option]; stdpp's solvers clear hypotheses by
   name. *)
#[local] Set Warnings "-register-all,-clear-no-such-hyp".

(* ===================================================================== *)
(** * Part I: the embedding                                              *)
(* ===================================================================== *)

(** ** Outcomes of a Python computation

    [Ok] is a normal return, [IndexError] the exception of an out-of-range
    subscript.  Recursive functions and [while] loops are embedded with a
    fuel argument; [OutOfFuel] says that the fuel was too small, it is not
    an outcome of the program. *)

Inductive res (A : Type) : Type :=
  | Ok (a : A)
  | IndexError
  | OutOfFuel.
Arguments Ok {A} a.
Arguments IndexError {A}.
Arguments OutOfFuel {A}.

#[global] Instance res_ret : MRet res := λ A a, Ok a.

#[global] Instance res_bind : MBind res := λ A B k m,
  match m with
  | Ok a => k a
  | IndexError => IndexError
  | OutOfFuel => OutOfFuel
  end.

(** ** Python subscripts

    [l[i]] on a list: indices [0 .. len-1] read from the front, indices
    [-len .. -1] read from the back, everything else raises. *)

Definition py_index (len : nat) (i : Z) : res nat :=
  let n := Z.of_nat len in
  let j := if 0 <=? i then i else n + i in
  if (0 <=? j) && (j <? n) then Ok (Z.to_nat j) else IndexError.

Definition py_getitem {A : Type} (l : list A) (i : Z) : res A :=
  j ← py_index (length l) i;
  match l !! j with
  | Some x => Ok x
  | None => IndexError
  end.

(** [l[i] = v]: the same index rule; the list object is updated in place,
    which the embedding threads as the new contents. *)

Definition py_setitem {A : Type} (l : list A) (i : Z) (v : A) : res (list A) :=
  j ← py_index (length l) i;
  Ok (<[j := v]> l).

(** [l.pop()] takes the last element; [None] stands for the empty list,
    which the loops test before they pop. *)

Definition py_pop {A : Type} (l : list A) : option (A * list A) :=
  match reverse l with
  | [] => None
  | x :: r => Some (x, reverse r)
  end.

(** [range(n)] and [itertools.product(xs, ys)]. *)

Definition range (n : Z) : list Z := Z.of_nat <$> seq 0 (Z.to_nat n).

Definition product {A B : Type} (xs : list A) (ys : list B) : list (A * B) :=
  x ← xs; (λ y, (x, y)) <$> ys.

(** A comprehension [[x for x in xs if cond(x)]] whose condition can raise. *)

Fixpoint filter_res {A : Type} (f : A → res bool) (xs : list A) : res (list A) :=
  match xs with
  | [] => Ok []
  | x :: xs' =>
      b ← f x;
      ys ← filter_res f xs';
      Ok (if b : bool then x :: ys else ys)
  end.

(** ** Search nodes

    The three search programs carry their own copy of the class [Node];
    the fields are the same in each.  The root has no parent and no
    action. *)

Section Nodes.
Context {State Action : Type}.

Inductive Node : Type :=
  mkNode (state : State) (parent : option Node) (action : option Action)
         (path_cost : Z).

Definition state (n : Node) : State := let 'mkNode s _ _ _ := n in s.
Definition parent (n : Node) : option Node := let 'mkNode _ p _ _ := n in p.
Definition action (n : Node) : option Action := let 'mkNode _ _ a _ := n in a.
Definition path_cost (n : Node) : Z := let 'mkNode _ _ _ c := n in c.

(** [Node(state)]: the defaults of the constructor. *)
Definition root (s : State) : Node := mkNode s None None 0.

(** [path_states(node)]; the test [node in (cutoff, failure, None)] is the
    [None] case here: the two sentinel nodes are module constants that no
    search creates or reaches through a parent link. *)
Fixpoint path_states_of (n : Node) : list State :=
  match n with
  | mkNode s p _ _ =>
      match p with
      | None => []
      | Some q => path_states_of q
      end ++ [s]
  end.

Definition path_states (n : option Node) : list State :=
  match n with
  | None => []
  | Some q => path_states_of q
  end.

(** [path_actions(node)]. *)
Fixpoint path_actions (n : Node) : list (option Action) :=
  match n with
  | mkNode _ p a _ =>
      match p with
      | None => []
      | Some q => path_actions q ++ [a]
      end
  end.
End Nodes.
Arguments Node : clear implicits.

(* --------------------------------------------------------------------- *)
(** ** find_longest_path.py                                              *)
(* --------------------------------------------------------------------- *)

Module FindLongestPath.

(** A matrix cell is a one-character string; it is kept as the code
    point that [ord] returns, so [==] on cells is [=] on code points. *)
Abbreviation cell := Z (only parsing).
Definition ord (c : cell) : Z := c.

Definition chr (a : ascii) : cell := Z.of_N (N_of_ascii a).

Abbreviation coord := (Z * Z)%type (only parsing).

Record MatrixPathProblem : Type := mkMatrixPathProblem {
  matrix : list (list cell);
  start_char : cell;
  rows : Z;
  cols : Z;
  initial : list coord;
}.

(** [self.matrix[r][c]] *)
Definition matrix_at (m : list (list cell)) (r c : Z) : res cell :=
  row ← py_getitem m r;
  py_getitem row c.

(** [find_start_positions] *)
Definition find_start_positions (m : list (list cell)) (start : cell)
    (rows cols : Z) : res (list coord) :=
  filter_res (λ '(r, c), x ← matrix_at m r c; Ok (bool_decide (x = start)))
             (product (range rows) (range cols)).

(** [MatrixPathProblem.__init__] *)
Definition init (m : list (list cell)) (start : cell) : res MatrixPathProblem :=
  let rows := Z.of_nat (length m) in
  row0 ← py_getitem m 0;
  let cols := Z.of_nat (length row0) in
  initial ← find_start_positions m start rows cols;
  Ok (mkMatrixPathProblem m start rows cols initial).

(** The condition of the comprehension in [actions]; [and] and [or]
    evaluate from the left and stop early. *)
Definition action_ok (p : MatrixPathProblem) (r c : Z) (d : coord) : res bool :=
  let '(dr, dc) := d in
  if negb (negb (dr =? 0) || negb (dc =? 0)) then Ok false
  else if negb ((0 <=? r + dr) && (r + dr <? rows p)) then Ok false
  else if negb ((0 <=? c + dc) && (c + dc <? cols p)) then Ok false
  else
    x ← matrix_at (matrix p) (r + dr) (c + dc);
    y ← matrix_at (matrix p) r c;
    Ok (ord x =? ord y + 1).

Definition actions (p : MatrixPathProblem) (s : coord) : res (list coord) :=
  let '(r, c) := s in
  filter_res (action_ok p r c) (product [-1; 0; 1] [-1; 0; 1]).

Definition result (s : coord) (a : coord) : coord :=
  let '(r, c) := s in
  let '(dr, dc) := a in
  (r + dr, c + dc).

(** [Problem.action_cost], not overridden. *)
Definition action_cost (s : coord) (a : coord) (s1 : coord) : Z := 1.

(** [expand(problem, node)]; the generator is consumed to its end by the
    only [for] loop that uses it, so it is embedded as the list of its
    elements. *)
Definition expand (p : MatrixPathProblem) (node : Node coord coord)
    : res (list (Node coord coord)) :=
  let s := state node in
  acts ← actions p s;
  Ok ((λ a, let s1 := result s a in
            let cost := path_cost node + action_cost s a s1 in
            mkNode s1 (Some node) (Some a) cost) <$> (acts : list coord)).

(** One turn of the [for child in expand(problem, node)] loop of
    [recursive_dfs], given the recursive call [rec]. *)
Definition visit_child (rec : Node coord coord → gset coord → res (Z * gset coord))
    (acc : res (Z * gset coord)) (child : Node coord coord)
    : res (Z * gset coord) :=
  '(max_length, visited) ← acc;
  if decide (state child ∉ visited) then
    '(length, visited) ← rec child visited;
    Ok (Z.max max_length length, visited)
  else Ok (max_length, visited).

(** [recursive_dfs(node, visited)].  [visited] is one set object shared
    by all the calls: each call receives its contents and hands back the
    contents it leaves. *)
Fixpoint recursive_dfs (fuel : nat) (p : MatrixPathProblem)
    (node : Node coord coord) (visited : gset coord) : res (Z * gset coord) :=
  match fuel with
  | O => OutOfFuel
  | S fuel' =>
      let visited := {[state node]} ∪ visited in
      children ← expand p node;
      '(max_length, visited) ←
        foldl (visit_child (recursive_dfs fuel' p)) (Ok (0, visited)) children;
      let visited := visited ∖ {[state node]} in
      Ok (1 + max_length, visited)
  end.

(** [depth_first_search(problem)] *)
Definition depth_first_search (fuel : nat) (p : MatrixPathProblem) : res Z :=
  foldl (λ acc start_state,
           max_path_length ← acc;
           let node := root start_state in
           '(length, _) ← recursive_dfs fuel p node ∅;
           Ok (Z.max max_path_length length))
        (Ok 0) (initial p).

(** The program: build the problem, then search. *)
Definition longest_path (fuel : nat) (m : list (list cell)) (start : cell) : res Z :=
  p ← init m start;
  depth_first_search fuel p.

End FindLongestPath.

(* --------------------------------------------------------------------- *)
(** ** DFS.py                                                            *)
(* --------------------------------------------------------------------- *)

Module DFS.

(** The cost that [depth_first_search] returns: a path cost, or
    [math.inf] when there is no path. *)
Inductive ecost : Type :=
  | Finite (c : Z)
  | Infinity.

Section Search.
Context {State Action : Type} `{Countable State}.

(** The interface [Problem]: what a subclass has to provide for the
    search to run.  The methods are total functions: a problem whose
    methods raise (the abstract [actions] and [result] of the base class)
    is not a value of this type.  The default [is_goal] of the base class
    is [λ s, bool_decide (s = goal)]. *)
Record Problem : Type := mkProblem {
  initial : State;
  actions : State → list Action;
  result : State → Action → State;
  action_cost : State → Action → State → Z;
  is_goal : State → bool;
}.

(** [expand(problem, node)]: the children in the order of [actions]. *)
Definition expand (p : Problem) (node : Node State Action)
    : list (Node State Action) :=
  let s := state node in
  (λ a, let s1 := result p s a in
        let cost := path_cost node + action_cost p s a s1 in
        mkNode s1 (Some node) (Some a) cost) <$> actions p s.

Abbreviation answer := (option (list State) * ecost)%type (only parsing).

(** What one turn of the [while frontier:] loop does: go on with a new
    frontier and explored set, or return. *)
Inductive turn : Type :=
  | Continue (frontier : list (Node State Action)) (explored : gset State)
  | Return (r : answer).

(** The body of the loop.  The frontier is a Python list: [pop()] takes
    its last element, [append] adds behind the last; an empty frontier
    ends the loop and the function returns [(None, math.inf)]. *)
Definition loop_body (p : Problem) (frontier : list (Node State Action))
    (explored : gset State) : turn :=
  match py_pop frontier with
  | None => Return (None, Infinity)
  | Some (node, frontier) =>
      if decide (state node ∈ explored) then Continue frontier explored
      else
        let explored := {[state node]} ∪ explored in
        if is_goal p (state node)
        then Return (Some (path_states (Some node)), Finite (path_cost node))
        else Continue (frontier ++ expand p node) explored
  end.

Fixpoint while_frontier (fuel : nat) (p : Problem)
    (frontier : list (Node State Action)) (explored : gset State)
    : res answer :=
  match fuel with
  | O => OutOfFuel
  | S fuel' =>
      match loop_body p frontier explored with
      | Return r => Ok r
      | Continue frontier explored => while_frontier fuel' p frontier explored
      end
  end.

(** [depth_first_search(problem)] *)
Definition depth_first_search (fuel : nat) (p : Problem) : res answer :=
  while_frontier fuel p [root (initial p)] ∅.

(** The loop state after [n] turns, for statements about the order of
    exploration. *)
Fixpoint turns (n : nat) (p : Problem) (frontier : list (Node State Action))
    (explored : gset State) : turn :=
  match n with
  | O => Continue frontier explored
  | S n' =>
      match loop_body p frontier explored with
      | Return r => Return r
      | Continue frontier explored => turns n' p frontier explored
      end
  end.
End Search.
Arguments Problem : clear implicits.
Arguments turn _ _ {_ _}.

(** [ItalyGraphProblem]: the graph is a dict of dicts; an inner dict is
    kept as the list of its items in insertion order.  [graph[s][s1]]
    raises [KeyError] for a missing key; [expand] only asks for the cost
    of a neighbour it has just read from [graph[s]] (lemma
    [italy_cost_present]), and the missing case is given cost 0 here. *)
Section Italy.
Context {State : Type} `{Countable State}.

Definition italy_actions (graph : gmap State (list (State * Z))) (s : State)
    : list State :=
  match graph !! s with
  | Some d => d.*1
  | None => []
  end.

Definition italy_cost (graph : gmap State (list (State * Z))) (s s1 : State) : Z :=
  match graph !! s with
  | Some d =>
      match list_find (λ kv, kv.1 = s1) d with
      | Some (_, kv) => kv.2
      | None => 0
      end
  | None => 0
  end.

(** [self.graph[s][s1]] as the source writes it; [None] stands for the
    [KeyError] of a missing key. *)
Definition italy_graph_cost (graph : gmap State (list (State * Z)))
    (s s1 : State) : option Z :=
  d ← graph !! s;
  kv ← list_find (λ kv, kv.1 = s1) d;
  Some kv.2.2.

Definition ItalyGraphProblem (graph : gmap State (list (State * Z)))
    (initial goal : State) : Problem State State :=
  {| initial := initial;
     actions := italy_actions graph;
     result := λ _ a, a;
     action_cost := λ s _ s1, italy_cost graph s s1;
     is_goal := λ s, bool_decide (s = goal) |}.
End Italy.

End DFS.

(* --------------------------------------------------------------------- *)
(** ** flood_fill.py                                                     *)
(* --------------------------------------------------------------------- *)

Module FloodFill.

(** Every list is an object in a store.  A matrix is a list object whose
    items are the addresses of its rows, and a row is a list object of
    colors.  Nothing makes the rows of a matrix distinct objects: two
    items of one matrix, or items of two matrices, may hold the same
    address, and a cell written through one of them is then read through
    the others.  A problem holds the address of its matrix, and [fill]
    returns an address. *)
Abbreviation loc := positive (only parsing).

Section Fill.
Context {color : Type} `{EqDecision color}.

Record store : Type := mkStore {
  grids : gmap loc (list loc);
  lines : gmap loc (list color);
}.

Record FloodFillProblem : Type := mkFloodFillProblem {
  matrix : loc;
  start_node : Z * Z;
  target_color : color;
  replacement_color : color;
}.

(** The list of rows, and the row, at an address. *)
Definition deref_grid (h : store) (l : loc) : list loc := grids h !!! l.

Definition deref_row (h : store) (l : loc) : list color := lines h !!! l.

(** [is_valid(x, y)] *)
Definition is_valid (self : FloodFillProblem) (h : store) (x y : Z) : res bool :=
  let m := deref_grid h (matrix self) in
  let rows := Z.of_nat (length m) in
  row0 ← py_getitem m 0;
  let cols := Z.of_nat (length (deref_row h row0)) in
  if negb ((0 <=? x) && (x <? rows)) then Ok false
  else if negb ((0 <=? y) && (y <? cols)) then Ok false
  else
    row ← py_getitem m x;
    c ← py_getitem (deref_row h row) y;
    Ok (bool_decide (c = target_color self)).

(** [self.matrix[x][y] = v]: the subscript [self.matrix[x]] gives a row
    object, and the assignment changes that object; the list of rows is
    only read. *)
Definition matrix_set (self : FloodFillProblem) (h : store) (x y : Z)
    (v : color) : res store :=
  row ← py_getitem (deref_grid h (matrix self)) x;
  cells ← py_setitem (deref_row h row) y v;
  Ok (mkStore (grids h) (<[row := cells]> (lines h))).

(** The inner function [dfs(x, y)] of [fill]. *)
Fixpoint dfs (fuel : nat) (self : FloodFillProblem) (x y : Z) (h : store)
    : res store :=
  match fuel with
  | O => OutOfFuel
  | S fuel' =>
      v ← is_valid self h x y;
      if negb v then Ok h
      else
        h ← matrix_set self h x y (replacement_color self);
        foldl (λ acc '(dx, dy), h ← acc; dfs fuel' self (x + dx) (y + dy) h)
              (Ok h) [(-1, 0); (1, 0); (0, -1); (0, 1)]
  end.

(** [fill()]: the address returned is that of [self.matrix]. *)
Definition fill (fuel : nat) (self : FloodFillProblem) (h : store)
    : res (loc * store) :=
  let '(start_x, start_y) := start_node self in
  row ← py_getitem (deref_grid h (matrix self)) start_x;
  c ← py_getitem (deref_row h row) start_y;
  if bool_decide (c = replacement_color self) then Ok (matrix self, h)
  else
    h ← dfs fuel self start_x start_y h;
    Ok (matrix self, h).
End Fill.
Arguments store : clear implicits.
Arguments FloodFillProblem : clear implicits.

End FloodFill.

(* --------------------------------------------------------------------- *)
(** ** word_matrix.py                                                    *)
(* --------------------------------------------------------------------- *)

Module WordMatrix.

Abbreviation coord := (Z * Z)%type (only parsing).

(** [is_valid_move(nx, ny, rows, cols, path)] *)
Definition is_valid_move (nx ny rows cols : Z) (path : list coord) : bool :=
  (0 <=? nx) && (nx <? rows) && ((0 <=? ny) && (ny <? cols))
  && bool_decide ((nx, ny) ∉ path).

Definition directions : list coord :=
  [(-1, -1); (-1, 0); (-1, 1); (0, -1); (0, 1); (1, -1); (1, 0); (1, 1)].

(** A search state [(x, y, path)]. *)
Abbreviation wstate := (Z * Z * list (Z * Z))%type (only parsing).

Section Words.
(** A letter is a one-character string; a word is the list of its
    letters, [list char]. *)
Context {char : Type} `{Countable char}.

Record MatrixWordSearchProblem : Type := mkMatrixWordSearchProblem {
  board : list (list char);
  dictionary : gset (list char);
  rows : Z;
  cols : Z;
  prefixes : gset (list char);
}.

(** [_build_prefix_set(words)]; [word[: i + 1]] is [take (S i) word]. *)
Definition _build_prefix_set (words : list (list char)) : gset (list char) :=
  foldl (λ prefixes w,
           foldl (λ prefixes i, {[take (S i) w]} ∪ prefixes)
                 prefixes (seq 0 (length w)))
        ∅ words.

(** [MatrixWordSearchProblem.__init__] *)
Definition init (board : list (list char)) (dictionary : list (list char))
    : res MatrixWordSearchProblem :=
  let rows := Z.of_nat (length board) in
  cols ← (if 0 <? rows
          then row0 ← py_getitem board 0; Ok (Z.of_nat (length row0))
          else Ok 0);
  Ok (mkMatrixWordSearchProblem board (list_to_set dictionary) rows cols
        (_build_prefix_set dictionary)).

(** [actions(state)]; the generator is consumed to its end by the loop
    of [find_words_from]. *)
Definition actions (self : MatrixWordSearchProblem) (st : wstate) : list coord :=
  let '(x, y, path) := st in
  filter (λ '(nx, ny), is_valid_move nx ny (rows self) (cols self) path = true)
         ((λ '(dx, dy), (x + dx, y + dy)) <$> directions).

(** [result(state, action)] *)
Definition result (st : wstate) (a : coord) : wstate :=
  let '(x, y, path) := st in
  let '(nx, ny) := a in
  (nx, ny, path ++ [(nx, ny)]).

(** ["".join(self.board[i][j] for i, j in path)] *)
Fixpoint join_path (self : MatrixWordSearchProblem) (path : list coord)
    : res (list char) :=
  match path with
  | [] => Ok []
  | (i, j) :: path' =>
      row ← py_getitem (board self) i;
      c ← py_getitem row j;
      w ← join_path self path';
      Ok (c :: w)
  end.

(** One turn of the [while stack:] loop of [find_words_from]; [None]
    when the stack is empty and the loop ends. *)
Definition stack_turn (self : MatrixWordSearchProblem)
    (stack : list wstate) (found_words : gset (list char))
    : res (option (list wstate * gset (list char))) :=
  match py_pop stack with
  | None => Ok None
  | Some (st, stack) =>
      let '(cx, cy, path) := st in
      w ← join_path self path;
      let found_words :=
        if decide (w ∈ dictionary self) then {[w]} ∪ found_words
        else found_words in
      let stack :=
        if decide (w ∈ prefixes self)
        then stack ++ (result st <$> actions self st)
        else stack in
      Ok (Some (stack, found_words))
  end.

Fixpoint while_stack (fuel : nat) (self : MatrixWordSearchProblem)
    (stack : list wstate) (found_words : gset (list char))
    : res (gset (list char)) :=
  match fuel with
  | O => OutOfFuel
  | S fuel' =>
      t ← stack_turn self stack found_words;
      match t with
      | None => Ok found_words
      | Some (stack, found_words) => while_stack fuel' self stack found_words
      end
  end.

(** [find_words_from(x, y)] *)
Definition find_words_from (fuel : nat) (self : MatrixWordSearchProblem)
    (x y : Z) : res (gset (list char)) :=
  while_stack fuel self [(x, y, [(x, y)])] ∅.

(** [find_all_words()] *)
Definition find_all_words (fuel : nat) (self : MatrixWordSearchProblem)
    : res (gset (list char)) :=
  foldl (λ acc '(x, y),
           found_words ← acc;
           ws ← find_words_from fuel self x y;
           Ok (found_words ∪ ws))
        (Ok ∅) (product (range (rows self)) (range (cols self))).

(** The program: build the problem, then search. *)
Definition word_search (fuel : nat) (board : list (list char))
    (dictionary : list (list char)) : res (gset (list char)) :=
  self ← init board dictionary;
  find_all_words fuel self.
End Words.
Arguments MatrixWordSearchProblem _ {_ _}.

End WordMatrix.

(* ===================================================================== *)
(** * Part II: properties                                                *)
(* ===================================================================== *)

(** ** Outcomes, subscripts, comprehensions *)

(** Decide the integer comparisons of the goal whose outcome [lia] knows. *)
Ltac zbool :=
  cbv zeta;
  repeat match goal with
    | |- context [?a <=? ?b] =>
        first [ rewrite (proj2 (Z.leb_le a b)) by lia
              | rewrite (proj2 (Z.leb_gt a b)) by lia ]
    | |- context [?a <? ?b] =>
        first [ rewrite (proj2 (Z.ltb_lt a b)) by lia
              | rewrite (proj2 (Z.ltb_ge a b)) by lia ]
    | |- context [?a =? ?b] =>
        first [ rewrite (proj2 (Z.eqb_eq a b)) by lia
              | rewrite (proj2 (Z.eqb_neq a b)) by lia ]
    end;
  cbn [andb orb negb].

Lemma bind_Ok {A B : Type} (a : A) (k : A → res B) : Ok a ≫= k = k a.
Proof. reflexivity. Qed.

Lemma py_index_in_range (n : nat) (i : Z) :
  0 ≤ i < Z.of_nat n → py_index n i = Ok (Z.to_nat i).
Proof.
  intros Hi. unfold py_index. zbool. zbool. reflexivity.
Qed.

Lemma py_getitem_lookup {A : Type} (l : list A) (i : Z) (x : A) :
  0 ≤ i → l !! Z.to_nat i = Some x → py_getitem l i = Ok x.
Proof.
  intros Hi Hx. unfold py_getitem.
  rewrite py_index_in_range.
  - simpl. rewrite Hx. reflexivity.
  - apply lookup_lt_Some in Hx. lia.
Qed.

Lemma py_pop_snoc {A : Type} (l : list A) (x : A) : py_pop (l ++ [x]) = Some (x, l).
Proof. unfold py_pop. rewrite reverse_snoc, reverse_involutive. reflexivity. Qed.

Lemma elem_of_range (z n : Z) : z ∈ range n ↔ 0 ≤ z < n.
Proof.
  unfold range. rewrite list_elem_of_fmap. split.
  - intros (k & -> & Hk). apply elem_of_seq in Hk. lia.
  - intros Hz. exists (Z.to_nat z). split; [lia|]. apply elem_of_seq. lia.
Qed.

Lemma elem_of_product {A B : Type} (xs : list A) (ys : list B) (x : A) (y : B) :
  (x, y) ∈ product xs ys ↔ x ∈ xs ∧ y ∈ ys.
Proof.
  unfold product. rewrite list_elem_of_bind. split.
  - intros (x' & Hy & Hx). apply list_elem_of_fmap in Hy as (y' & E & Hy).
    inversion E; subst. done.
  - intros [Hx Hy]. exists x. split; [|done].
    apply list_elem_of_fmap. eauto.
Qed.

Lemma filter_res_Ok {A : Type} (f : A → res bool) (g : A → bool) (xs : list A) :
  (∀ x, x ∈ xs → f x = Ok (g x)) →
  filter_res f xs = Ok (filter (λ x, g x = true) xs).
Proof.
  induction xs as [|x xs IH]; intros Hf; [done|].
  simpl. rewrite (Hf x) by left. simpl.
  rewrite IH by (intros; apply Hf; by right). simpl.
  rewrite filter_cons. destruct (g x); by case_decide.
Qed.

(** ** Grids

    [cell_at m r c] is the cell at a coordinate inside the grid, and
    [None] at any other coordinate; it is the reading of [m[r][c]] that
    the specifications use. *)

Definition cell_at {A : Type} (m : list (list A)) (r c : Z) : option A :=
  if (0 <=? r) && (0 <=? c)
  then row ← m !! Z.to_nat r; row !! Z.to_nat c
  else None.

(** A rectangular grid of [rows] rows and [cols] columns. *)
Definition rectangular {A : Type} (m : list (list A)) (rows cols : Z) : Prop :=
  rows = Z.of_nat (length m) ∧ Forall (λ row, Z.of_nat (length row) = cols) m.

Lemma rectangular_cell {A : Type} (m : list (list A)) (rows cols r c : Z) :
  rectangular m rows cols → 0 ≤ r < rows → 0 ≤ c < cols →
  ∃ row x, m !! Z.to_nat r = Some row ∧ row !! Z.to_nat c = Some x
           ∧ cell_at m r c = Some x.
Proof.
  intros [-> Hrows] Hr Hc.
  destruct (lookup_lt_is_Some_2 m (Z.to_nat r)) as [row Hrow]; [lia|].
  assert (Z.of_nat (length row) = cols) as Hlen.
  { rewrite Forall_forall in Hrows. apply Hrows.
    eapply list_elem_of_lookup_2, Hrow. }
  destruct (lookup_lt_is_Some_2 row (Z.to_nat c)) as [x Hx]; [lia|].
  exists row, x. split; [done|]. split; [done|].
  unfold cell_at. zbool. rewrite Hrow. simpl. done.
Qed.

Lemma cell_at_Some {A : Type} (m : list (list A)) (rows cols r c : Z) (x : A) :
  rectangular m rows cols → cell_at m r c = Some x →
  0 ≤ r < rows ∧ 0 ≤ c < cols.
Proof.
  intros [-> Hrows]. unfold cell_at.
  destruct (Z.leb_spec 0 r); [|done]. destruct (Z.leb_spec 0 c); [|done].
  simpl. destruct (m !! Z.to_nat r) as [row|] eqn:Hrow; [|done]. simpl.
  intros Hx.
  assert (Z.of_nat (length row) = cols) as Hlen.
  { rewrite Forall_forall in Hrows. apply Hrows.
    eapply list_elem_of_lookup_2, Hrow. }
  apply lookup_lt_Some in Hrow, Hx. lia.
Qed.

(** The coordinates of a grid of [nr] rows and [nc] columns, as a set. *)
Definition grid_cells (nr nc : Z) : gset (Z * Z) :=
  list_to_set (product (range nr) (range nc)).

Lemma elem_of_grid_cells (nr nc : Z) (s : Z * Z) :
  s ∈ grid_cells nr nc ↔ 0 ≤ s.1 < nr ∧ 0 ≤ s.2 < nc.
Proof.
  unfold grid_cells. rewrite elem_of_list_to_set. destruct s as [r c].
  rewrite elem_of_product, !elem_of_range. done.
Qed.

Lemma size_list_to_set_le (l : list (Z * Z)) :
  (size (list_to_set l : gset (Z * Z)) ≤ length l)%nat.
Proof.
  induction l as [|x l IH].
  - rewrite list_to_set_nil, size_empty. simpl. lia.
  - rewrite list_to_set_cons, size_union_alt, size_singleton. simpl length.
    assert (size (list_to_set l ∖ {[x]} : gset (Z * Z))
            ≤ size (list_to_set l : gset (Z * Z)))%nat
      by (apply subseteq_size; set_solver).
    lia.
Qed.

Lemma length_product {A B : Type} (xs : list A) (ys : list B) :
  length (product xs ys) = (length xs * length ys)%nat.
Proof.
  unfold product. induction xs as [|x xs IH]; [done|].
  change (length (((λ y, (x, y)) <$> ys) ++ (xs ≫= λ x, (λ y, (x, y)) <$> ys))
          = (S (length xs) * length ys)%nat).
  rewrite length_app, length_fmap, IH. done.
Qed.

Lemma size_grid_cells (nr nc : Z) :
  (size (grid_cells nr nc) ≤ Z.to_nat nr * Z.to_nat nc)%nat.
Proof.
  unfold grid_cells. etrans; [apply size_list_to_set_le|].
  rewrite length_product. unfold range. rewrite !length_fmap, !length_seq. done.
Qed.

Lemma rectangular_first_row {A : Type} (m : list (list A)) (nr nc : Z) :
  rectangular m nr nc → 0 < nr →
  ∃ row0, m !! 0%nat = Some row0 ∧ py_getitem m 0 = Ok row0
          ∧ Z.of_nat (length row0) = nc.
Proof.
  intros [-> Hcols] Hnr.
  destruct m as [|row0 m]; [simpl in Hnr; lia|].
  exists row0. split; [done|]. split; [by apply py_getitem_lookup|].
  by apply Forall_cons in Hcols as [? _].
Qed.

Lemma cell_at_outside {A : Type} (m : list (list A)) (nr nc r c : Z) :
  rectangular m nr nc → ¬ (0 ≤ r < nr ∧ 0 ≤ c < nc) → cell_at m r c = None.
Proof.
  intros Hm Hout. destruct (cell_at m r c) as [x|] eqn:Hx; [|done].
  destruct Hout. by eapply cell_at_Some.
Qed.

(* --------------------------------------------------------------------- *)
(** ** Longest ascending path (find_longest_path.py)                     *)
(* --------------------------------------------------------------------- *)

Module LongestPathFacts.
Import FindLongestPath.

(** *** What is being searched for *)

(** Two distinct cells that touch by a side or a corner. *)
Definition adjacent8 (s t : coord) : Prop :=
  s ≠ t ∧ -1 ≤ t.1 - s.1 ≤ 1 ∧ -1 ≤ t.2 - s.2 ≤ 1.

(** A legal step: both cells are in the grid, they are adjacent, and the
    character of the second is the next code point. *)
Definition ascends (m : list (list cell)) (s t : coord) : Prop :=
  adjacent8 s t ∧
  ∃ x y, cell_at m s.1 s.2 = Some x ∧ cell_at m t.1 t.2 = Some y
         ∧ ord y = ord x + 1.

(** A non-empty sequence of cells of the grid linked by legal steps. *)
Fixpoint ascending (m : list (list cell)) (path : list coord) : Prop :=
  match path with
  | [] => False
  | s :: rest =>
      match rest with
      | [] => is_Some (cell_at m s.1 s.2)
      | t :: _ => ascends m s t ∧ ascending m rest
      end
  end.

(** A simple ascending path that starts at [s] and stays out of [V]. *)
Definition path_from (m : list (list cell)) (s : coord) (V : gset coord)
    (path : list coord) : Prop :=
  head path = Some s ∧ ascending m path ∧ NoDup path ∧ ∀ x, x ∈ path → x ∉ V.

Definition longest_from (m : list (list cell)) (s : coord) (V : gset coord)
    (n : Z) : Prop :=
  (∃ path, path_from m s V path ∧ Z.of_nat (length path) = n) ∧
  (∀ path, path_from m s V path → Z.of_nat (length path) ≤ n).

(** A simple ascending path whose first cell holds the start character. *)
Definition start_path (m : list (list cell)) (start : cell)
    (path : list coord) : Prop :=
  ∃ s, cell_at m s.1 s.2 = Some start ∧ path_from m s ∅ path.

(** [n] is the cell count of the longest such path, and 0 when there is
    none. *)
Definition longest_start_path (m : list (list cell)) (start : cell) (n : Z)
    : Prop :=
  (∀ path, start_path m start path → Z.of_nat (length path) ≤ n) ∧
  ((∃ path, start_path m start path ∧ Z.of_nat (length path) = n) ∨
   (n = 0 ∧ ∀ path, ¬ start_path m start path)).

(** The cells of the grid, as a set. *)
Definition cells (p : MatrixPathProblem) : gset coord :=
  grid_cells (rows p) (cols p).

(** A problem object as [init] builds it from a rectangular matrix. *)
Definition wf (p : MatrixPathProblem) : Prop :=
  rectangular (matrix p) (rows p) (cols p).

(** *** The engine on a well-formed problem *)

Lemma elem_of_cells p (s : coord) :
  s ∈ cells p ↔ 0 ≤ s.1 < rows p ∧ 0 ≤ s.2 < cols p.
Proof. apply elem_of_grid_cells. Qed.

Lemma matrix_at_cell (m : list (list cell)) (nr nc r c : Z) :
  rectangular m nr nc → 0 ≤ r < nr → 0 ≤ c < nc →
  ∃ x, cell_at m r c = Some x ∧ matrix_at m r c = Ok x.
Proof.
  intros Hm Hr Hc.
  destruct (rectangular_cell m nr nc r c Hm Hr Hc) as (row & x & Hrow & Hx & Hcell).
  exists x. split; [done|]. unfold matrix_at.
  rewrite (py_getitem_lookup m r row) by (done || lia). simpl.
  apply py_getitem_lookup; [lia|done].
Qed.

(** The condition of [actions], without the possibility of a fault. *)
Definition step_ok (p : MatrixPathProblem) (r c : Z) (d : coord) : bool :=
  (negb (d.1 =? 0) || negb (d.2 =? 0))
  && ((0 <=? r + d.1) && (r + d.1 <? rows p))
  && ((0 <=? c + d.2) && (c + d.2 <? cols p))
  && match cell_at (matrix p) (r + d.1) (c + d.2), cell_at (matrix p) r c with
     | Some x, Some y => ord x =? ord y + 1
     | _, _ => false
     end.

Lemma action_ok_step_ok p r c d :
  wf p → 0 ≤ r < rows p → 0 ≤ c < cols p →
  action_ok p r c d = Ok (step_ok p r c d).
Proof.
  intros Hwf Hr Hc. destruct d as [dr dc]. unfold action_ok, step_ok. simpl.
  destruct (negb (dr =? 0) || negb (dc =? 0)); [|done]. simpl.
  destruct ((0 <=? r + dr) && (r + dr <? rows p)) eqn:Er; [|done]. simpl.
  destruct ((0 <=? c + dc) && (c + dc <? cols p)) eqn:Ec; [|done]. simpl.
  destruct (matrix_at_cell (matrix p) (rows p) (cols p) (r + dr) (c + dc))
    as (x & Hx & ->); [done|lia..|].
  destruct (matrix_at_cell (matrix p) (rows p) (cols p) r c)
    as (y & Hy & ->); [done..|].
  rewrite Hx, Hy. done.
Qed.

Lemma step_ok_ascends p r c d :
  wf p → d ∈ product [-1; 0; 1] [-1; 0; 1] →
  step_ok p r c d = true → ascends (matrix p) (r, c) (result (r, c) d).
Proof.
  intros Hwf Hd. destruct d as [dr dc]. unfold step_ok, ascends, adjacent8.
  simpl. apply elem_of_product in Hd as [Hdr Hdc].
  rewrite !andb_true_iff.
  intros [[[Hne _] _] Hcell].
  destruct (cell_at (matrix p) (r + dr) (c + dc)) as [x|] eqn:Hx; [|done].
  destruct (cell_at (matrix p) r c) as [y|] eqn:Hy; [|done].
  apply Z.eqb_eq in Hcell.
  assert (dr ≠ 0 ∨ dc ≠ 0) as Hne'.
  { apply orb_true_iff in Hne as [E|E]; apply negb_true_iff, Z.eqb_neq in E; auto. }
  assert (-1 ≤ dr ≤ 1 ∧ -1 ≤ dc ≤ 1) as Hrange.
  { set_unfold in Hdr. set_unfold in Hdc. lia. }
  split.
  - split; [|lia]. intros E. inversion E. lia.
  - exists y, x. done.
Qed.

Lemma ascends_step_ok p r c t :
  wf p → ascends (matrix p) (r, c) t →
  ∃ d, d ∈ product [-1; 0; 1] [-1; 0; 1] ∧ step_ok p r c d = true
       ∧ t = result (r, c) d.
Proof.
  intros Hwf [(Hne & Hdr & Hdc) (x & y & Hx & Hy & Hord)].
  destruct t as [r' c']. cbn [fst snd] in *.
  exists (r' - r, c' - c). split; [|split].
  - apply elem_of_product. set_unfold. lia.
  - pose proof (cell_at_Some _ _ _ _ _ _ Hwf Hy) as [? ?].
    unfold step_ok. simpl.
    replace (r + (r' - r)) with r' by lia.
    replace (c + (c' - c)) with c' by lia.
    rewrite Hx, Hy. rewrite !andb_true_iff. repeat split; try lia.
    apply orb_true_iff.
    destruct (decide (r' - r = 0)) as [E|E].
    + right. apply negb_true_iff, Z.eqb_neq. intros E'.
      apply Hne. f_equal; lia.
    + left. apply negb_true_iff, Z.eqb_neq. done.
  - simpl. f_equal; lia.
Qed.

Lemma ascending_actions_spec p (s : coord) :
  wf p → s ∈ cells p →
  ∃ acts, actions p s = Ok acts ∧
          ∀ t, t ∈ result s <$> acts ↔ ascends (matrix p) s t.
Proof.
  intros Hwf Hs. apply elem_of_cells in Hs. destruct s as [r c]. simpl in Hs.
  eexists. split.
  { unfold actions. apply filter_res_Ok.
    intros d _. apply action_ok_step_ok; tauto. }
  intros t. rewrite list_elem_of_fmap. split.
  - intros (d & -> & Hd). apply list_elem_of_filter in Hd as [Hok Hd].
    by apply step_ok_ascends.
  - intros Ht. apply ascends_step_ok in Ht as (d & Hd & Hok & ->); [|done].
    exists d. split; [done|]. by apply list_elem_of_filter.
Qed.

Lemma expand_spec p (node : Node coord coord) :
  wf p → state node ∈ cells p →
  ∃ children, expand p node = Ok children ∧
    ∀ t, t ∈ state <$> children ↔ ascends (matrix p) (state node) t.
Proof.
  intros Hwf Hs.
  destruct (ascending_actions_spec p (state node) Hwf Hs) as (acts & Hacts & Hspec).
  eexists. split.
  { unfold expand. rewrite Hacts. simpl. reflexivity. }
  intros t. rewrite <- Hspec, <- list_fmap_compose. done.
Qed.

(** The loop over the children: the visited set comes back as it went
    in, and the maximum is that of the children that were entered. *)
Lemma visit_children_spec
    (rec : Node coord coord → gset coord → res (Z * gset coord))
    (V1 : gset coord) (cs : list (Node coord coord)) :
  (∀ c, c ∈ cs → state c ∉ V1 → ∃ n, rec c V1 = Ok (n, V1)) →
  ∃ M, foldl (visit_child rec) (Ok (0, V1)) cs = Ok (M, V1)
       ∧ 0 ≤ M
       ∧ (M = 0 ∨ ∃ c, c ∈ cs ∧ (state c ∉ V1) ∧ rec c V1 = Ok (M, V1))
       ∧ (∀ c, c ∈ cs → state c ∉ V1 → ∃ n, rec c V1 = Ok (n, V1) ∧ n ≤ M).
Proof.
  induction cs as [|c cs IH] using rev_ind; intros Hrec.
  { exists 0. simpl. split; [done|]. split; [done|]. split; [by left|].
    intros c Hc. by apply elem_of_nil in Hc. }
  destruct IH as (M & Hfold & HM0 & Hwit & Hmax).
  { intros c' Hc'. apply Hrec. apply elem_of_app. by left. }
  rewrite foldl_snoc, Hfold. unfold visit_child at 1. simpl.
  destruct (decide (state c ∉ V1)) as [Hc|Hc].
  - destruct (Hrec c) as [n Hn]; [apply elem_of_app; right; by left|done|].
    rewrite Hn. simpl. exists (Z.max M n).
    split; [done|]. split; [lia|]. split.
    + destruct (Z.max_spec M n) as [[? ->]|[? ->]].
      * right. exists c. split; [apply elem_of_app; right; by left|done].
      * destruct Hwit as [->|(c' & Hc' & ? & ?)]; [by left|].
        right. exists c'. split; [apply elem_of_app; by left|done].
    + intros c' Hc' Hc'V. apply elem_of_app in Hc' as [Hc'|Hc'].
      * destruct (Hmax c' Hc' Hc'V) as (n' & ? & ?). exists n'. split; [done|lia].
      * apply list_elem_of_singleton in Hc' as ->. exists n. split; [done|lia].
  - exists M. split; [done|]. split; [done|]. split.
    + destruct Hwit as [->|(c' & Hc' & ? & ?)]; [by left|].
      right. exists c'. split; [apply elem_of_app; by left|done].
    + intros c' Hc' Hc'V. apply elem_of_app in Hc' as [Hc'|Hc'].
      * by apply Hmax.
      * by apply list_elem_of_singleton in Hc' as ->.
Qed.

Lemma path_from_single (m : list (list cell)) (s : coord) (V : gset coord) :
  is_Some (cell_at m s.1 s.2) → s ∉ V → path_from m s V [s].
Proof.
  intros Hs HV. split; [done|]. split; [done|]. split.
  - apply NoDup_singleton.
  - intros x Hx. by apply list_elem_of_singleton in Hx as ->.
Qed.

Lemma path_from_cons (m : list (list cell)) (s t : coord) (V : gset coord) path :
  ascends m s t → s ∉ V → path_from m t ({[s]} ∪ V) path →
  path_from m s V (s :: path).
Proof.
  intros Hst HV (Hhd & Hasc & Hnd & Hav).
  destruct path as [|t' path]; [done|]. simpl in Hhd. inversion Hhd; subst t'.
  split; [done|]. split; [done|]. split.
  - apply NoDup_cons. split; [|done]. intros Hs. apply (Hav s Hs). set_solver.
  - intros x Hx. apply elem_of_cons in Hx as [->|Hx]; [done|].
    specialize (Hav x Hx). set_solver.
Qed.

Lemma path_from_inv (m : list (list cell)) (s : coord) (V : gset coord) path :
  path_from m s V path →
  path = [s] ∨
  ∃ t rest, path = s :: t :: rest ∧ ascends m s t ∧ (t ∉ {[s]} ∪ V)
            ∧ path_from m t ({[s]} ∪ V) (t :: rest).
Proof.
  intros (Hhd & Hasc & Hnd & Hav).
  destruct path as [|s' path]; [done|]. simpl in Hhd. inversion Hhd; subst s'.
  destruct path as [|t rest]; [by left|]. right.
  exists t, rest. destruct Hasc as [Hst Hasc].
  apply NoDup_cons in Hnd as [Hs Hnd].
  assert (∀ x, x ∈ t :: rest → x ∉ {[s]} ∪ V) as Hav'.
  { intros x Hx. apply not_elem_of_union. split.
    - intros ->%elem_of_singleton. done.
    - apply Hav. by right. }
  split; [done|]. split; [done|]. split; [apply Hav'; by left|].
  split; [done|]. split; [done|]. split; done.
Qed.

(** With fuel for every cell that is still free, [recursive_dfs] returns
    the length of the longest path from its node through free cells, and
    leaves the visited set as it found it. *)
Lemma recursive_dfs_spec p (fuel : nat) :
  wf p →
  ∀ (node : Node coord coord) (V : gset coord),
    state node ∈ cells p → state node ∉ V →
    (size (cells p ∖ V) ≤ fuel)%nat →
    ∃ n, recursive_dfs fuel p node V = Ok (n, V)
         ∧ longest_from (matrix p) (state node) V n.
Proof.
  intros Hwf. induction fuel as [|fuel IH]; intros node V Hs HV Hfuel.
  { exfalso. assert (state node ∈ cells p ∖ V) as Hin by set_solver.
    assert (size (cells p ∖ V) = 0%nat) as E by lia.
    apply size_empty_inv in E. set_solver. }
  simpl.
  destruct (expand_spec p node Hwf Hs) as (children & -> & Hchildren). simpl.
  set (V1 := {[state node]} ∪ V).
  assert (∀ c, c ∈ children → state c ∉ V1 →
            ∃ n, recursive_dfs fuel p c V1 = Ok (n, V1)
                 ∧ longest_from (matrix p) (state c) V1 n) as Hrec.
  { intros c Hc HcV.
    assert (ascends (matrix p) (state node) (state c)) as Hasc.
    { apply Hchildren. apply list_elem_of_fmap. eauto. }
    apply IH; [|done|].
    - destruct Hasc as [_ (x & y & _ & Hy & _)].
      apply elem_of_cells. eapply cell_at_Some; [apply Hwf|apply Hy].
    - assert (cells p ∖ V1 ⊂ cells p ∖ V) as Hlt by (unfold V1; set_solver).
      apply subset_size in Hlt. lia. }
  destruct (visit_children_spec (recursive_dfs fuel p) V1 children)
    as (M & -> & HM0 & Hwit & Hmax).
  { intros c Hc HcV. destruct (Hrec c Hc HcV) as (n & ? & _). eauto. }
  simpl. replace (V1 ∖ {[state node]}) with V by (unfold V1; set_solver).
  exists (1 + M). split; [done|].
  assert (is_Some (cell_at (matrix p) (state node).1 (state node).2)) as Hcell.
  { apply elem_of_cells in Hs as [Hr Hc].
    destruct (rectangular_cell _ _ _ _ _ Hwf Hr Hc) as (? & x & _ & _ & ->). eauto. }
  split.
  - destruct Hwit as [->|(c & Hc & HcV & Hcn)].
    + exists [state node]. split; [by apply path_from_single|done].
    + destruct (Hrec c Hc HcV) as (n & Hn & [(path & Hpath & Hlen) _]).
      assert (n = M) as -> by congruence.
      exists (state node :: path). split.
      * eapply path_from_cons; [|done|done].
        apply Hchildren. apply list_elem_of_fmap. eauto.
      * simpl length. lia.
  - intros path Hpath. apply path_from_inv in Hpath
      as [->|(t & rest & -> & Hasc & HtV & Hrest)]; [simpl; lia|].
    apply Hchildren in Hasc. apply list_elem_of_fmap in Hasc as (c & -> & Hc).
    destruct (Hrec c Hc HtV) as (n & Hn & [_ Hup]).
    destruct (Hmax c Hc HtV) as (n' & Hn' & Hle).
    assert (n' = n) as -> by congruence.
    specialize (Hup _ Hrest). simpl length in *. lia.
Qed.

(** *** The whole program *)

Lemma path_init_spec (m : list (list cell)) (start : cell) (nr nc : Z) :
  rectangular m nr nc → 0 < nr →
  ∃ p, init m start = Ok p ∧ matrix p = m ∧ rows p = nr ∧ cols p = nc
       ∧ start_char p = start
       ∧ ∀ s, s ∈ initial p ↔ cell_at m s.1 s.2 = Some start.
Proof.
  intros Hm Hnr.
  destruct (rectangular_first_row m nr nc Hm Hnr) as (row0 & _ & Hrow0 & Hlen).
  pose proof Hm as [Hrows _].
  unfold init. rewrite Hrow0. simpl. rewrite Hlen, <- Hrows.
  unfold find_start_positions.
  rewrite (filter_res_Ok _
    (λ s, match cell_at m s.1 s.2 with
          | Some x => bool_decide (x = start)
          | None => false
          end)).
  - simpl. eexists. split; [done|]. simpl. repeat (split; [done|]).
    intros [r c]. rewrite list_elem_of_filter, elem_of_product, !elem_of_range.
    simpl. split.
    + intros [Hc _]. destruct (cell_at m r c) as [x|]; [|done].
      apply bool_decide_eq_true in Hc. by subst.
    + intros Hc. rewrite Hc. split; [by apply bool_decide_eq_true|].
      eapply cell_at_Some; [apply Hm|apply Hc].
  - intros [r c] Hrc. apply elem_of_product in Hrc as [Hr Hc].
    apply elem_of_range in Hr, Hc.
    destruct (matrix_at_cell m nr nc r c Hm Hr Hc) as (x & Hx & ->).
    simpl. rewrite Hx. done.
Qed.

Lemma size_cells p :
  (size (cells p) ≤ Z.to_nat (rows p) * Z.to_nat (cols p))%nat.
Proof. apply size_grid_cells. Qed.

(** The loop over the start cells. *)
Lemma start_loop_spec p (fuel : nat) (starts : list coord) :
  wf p → (size (cells p) ≤ fuel)%nat →
  (∀ s, s ∈ starts → s ∈ cells p) →
  ∃ L, foldl (λ acc start_state,
                max_path_length ← acc;
                let node := root start_state in
                '(length, _) ← recursive_dfs fuel p node ∅;
                Ok (Z.max max_path_length length))
             (Ok 0) starts = Ok L
       ∧ (∀ s path, s ∈ starts → path_from (matrix p) s ∅ path →
                    Z.of_nat (length path) ≤ L)
       ∧ ((starts = [] ∧ L = 0) ∨
          (∃ s path, s ∈ starts ∧ path_from (matrix p) s ∅ path
                     ∧ Z.of_nat (length path) = L)).
Proof.
  intros Hwf Hfuel. induction starts as [|s starts IH] using rev_ind; intros Hin.
  { exists 0. split; [done|]. split; [|by left].
    intros s path Hs. by apply elem_of_nil in Hs. }
  destruct IH as (L & Hfold & Hup & Hwit).
  { intros s' Hs'. apply Hin, elem_of_app. by left. }
  rewrite foldl_snoc, Hfold. simpl.
  destruct (recursive_dfs_spec p fuel Hwf (root s) ∅)
    as (n & -> & [(path & Hpath & Hlen) Hmax]).
  { apply Hin, elem_of_app. right. by left. }
  { set_solver. }
  { etrans; [|apply Hfuel]. apply subseteq_size. set_solver. }
  simpl. exists (Z.max L n). split; [done|]. split.
  - intros s' path' Hs' Hpath'. apply elem_of_app in Hs' as [Hs'|Hs'].
    + specialize (Hup s' path' Hs' Hpath'). lia.
    + apply list_elem_of_singleton in Hs' as ->. specialize (Hmax _ Hpath'). lia.
  - right. destruct (Z.max_spec L n) as [[? ->]|[Hle ->]].
    + exists s, path. split; [apply elem_of_app; right; by left|done].
    + destruct Hwit as [[-> ->]|(s' & path' & Hs' & ? & ?)].
      * exists s, path. split; [apply elem_of_app; right; by left|].
        split; [done|].
        assert (1 ≤ Z.of_nat (length path)).
        { destruct Hpath as (Hhd & _). destruct path; [done|]. simpl length. lia. }
        lia.
      * exists s', path'. split; [apply elem_of_app; by left|done].
Qed.

Lemma depth_first_search_spec p (fuel : nat) :
  wf p → (size (cells p) ≤ fuel)%nat →
  (∀ s, s ∈ initial p ↔ cell_at (matrix p) s.1 s.2 = Some (start_char p)) →
  ∃ L, depth_first_search fuel p = Ok L
       ∧ longest_start_path (matrix p) (start_char p) L.
Proof.
  intros Hwf Hfuel Hinit.
  destruct (start_loop_spec p fuel (initial p) Hwf Hfuel) as (L & HL & Hup & Hwit).
  { intros s Hs. apply Hinit in Hs. apply elem_of_cells.
    eapply cell_at_Some; [apply Hwf|apply Hs]. }
  exists L. split; [done|]. split.
  - intros path (s & Hs & Hpath). apply (Hup s); [by apply Hinit|done].
  - destruct Hwit as [[Hnil ->]|(s & path & Hs & Hpath & Hlen)].
    + right. split; [done|]. intros path (s & Hs & _).
      apply Hinit in Hs. rewrite Hnil in Hs. by apply elem_of_nil in Hs.
    + left. exists path. split; [|done]. exists s. split; [by apply Hinit|done].
Qed.

Lemma longest_start_path_unique (m : list (list cell)) (start : cell) (n1 n2 : Z) :
  longest_start_path m start n1 → longest_start_path m start n2 → n1 = n2.
Proof.
  intros [Hup1 Hw1] [Hup2 Hw2].
  destruct Hw1 as [(p1 & Hp1 & <-)|[-> Hno1]], Hw2 as [(p2 & Hp2 & <-)|[-> Hno2]].
  - specialize (Hup1 _ Hp2). specialize (Hup2 _ Hp1). lia.
  - by destruct (Hno2 p1).
  - by destruct (Hno1 p2).
  - done.
Qed.

Lemma longest_path_spec (m : list (list cell)) (start : cell) (nr nc : Z)
    (fuel : nat) :
  rectangular m nr nc → 0 < nr → (Z.to_nat nr * Z.to_nat nc ≤ fuel)%nat →
  ∃ L, longest_path fuel m start = Ok L ∧ longest_start_path m start L.
Proof.
  intros Hm Hnr Hfuel.
  destruct (path_init_spec m start nr nc Hm Hnr)
    as (p & Hp & Hmat & Hrows & Hcols & Hstart & Hinit).
  unfold longest_path. rewrite Hp. simpl.
  rewrite <- Hmat, <- Hstart.
  apply depth_first_search_spec.
  - unfold wf. by rewrite Hmat, Hrows, Hcols.
  - etrans; [apply size_cells|]. by rewrite Hrows, Hcols.
  - intros s. by rewrite Hmat, Hstart.
Qed.

(** The matrix of the scenario. *)
Definition scenario_matrix : list (list cell) :=
  map (map chr) [["A"; "B"]; ["D"; "C"]]%char.

Lemma scenario_rectangular : rectangular scenario_matrix 2 2.
Proof. split; [done|]. repeat constructor. Qed.

(** *** Claims *)

(** X21.  For every rectangular character grid with at least one row
    ([nr] rows of [nc] cells) and every start character, the search
    returns (given fuel for every cell) the cell count of the longest
    simple 8-connected path that begins on a start-character cell and
    whose successive characters ascend by exactly one code point; the
    result is at least 1 when some cell holds the start character,
    exactly 1 when in addition no start cell has a legal successor, and 0
    when no cell holds the start character. *)
Theorem longest_path_correct (m : list (list cell)) (start : cell) (nr nc : Z)
    (fuel : nat) :
  rectangular m nr nc → 0 < nr → (Z.to_nat nr * Z.to_nat nc ≤ fuel)%nat →
  ∃ L, longest_path fuel m start = Ok L
       ∧ longest_start_path m start L
       ∧ ((∃ r c, cell_at m r c = Some start) → 1 ≤ L)
       ∧ ((∃ r c, cell_at m r c = Some start) →
          (∀ s t, cell_at m s.1 s.2 = Some start → ¬ ascends m s t) → L = 1)
       ∧ ((∀ r c, cell_at m r c ≠ Some start) → L = 0).
Proof.
  intros Hm Hnr Hfuel.
  destruct (longest_path_spec m start nr nc fuel Hm Hnr Hfuel) as (L & HL & Hlsp).
  exists L. split; [done|]. split; [done|].
  destruct Hlsp as [Hup Hwit].
  assert (∀ r c, cell_at m r c = Some start → start_path m start [(r, c)]) as Hone.
  { intros r c Hrc. exists (r, c). split; [done|].
    apply path_from_single; [simpl; by rewrite Hrc|set_solver]. }
  split; [|split].
  - intros (r & c & Hrc). specialize (Hup _ (Hone r c Hrc)). simpl in Hup. lia.
  - intros (r & c & Hrc) Hdead.
    specialize (Hup _ (Hone r c Hrc)). simpl in Hup.
    destruct Hwit as [(path & (s & Hs & Hpath) & Hlen)|[-> _]]; [|lia].
    apply path_from_inv in Hpath as [->|(t & rest & _ & Hasc & _)]; [simpl in Hlen; lia|].
    by destruct (Hdead s t).
  - intros Hnone.
    destruct Hwit as [(path & (s & Hs & _) & _)|[-> _]]; [|done].
    by destruct (Hnone s.1 s.2).
Qed.

Lemma longest_path_correct_witness :
  rectangular scenario_matrix 2 2 ∧ 0 < 2 ∧ (Z.to_nat 2 * Z.to_nat 2 ≤ 4)%nat ∧
  ∃ L, longest_path 4 scenario_matrix (chr "A") = Ok L
       ∧ longest_start_path scenario_matrix (chr "A") L
       ∧ ((∃ r c, cell_at scenario_matrix r c = Some (chr "A")) → 1 ≤ L)
       ∧ ((∃ r c, cell_at scenario_matrix r c = Some (chr "A")) →
          (∀ s t, cell_at scenario_matrix s.1 s.2 = Some (chr "A") →
                  ¬ ascends scenario_matrix s t) → L = 1)
       ∧ ((∀ r c, cell_at scenario_matrix r c ≠ Some (chr "A")) → L = 0).
Proof.
  split; [exact scenario_rectangular|]. split; [lia|]. split; [simpl; lia|].
  apply (longest_path_correct scenario_matrix (chr "A") 2 2 4).
  - exact scenario_rectangular.
  - lia.
  - simpl. lia.
Defined.

(** On the matrix without rows the constructor reads [matrix[0]] and
    raises before any search starts. *)
Lemma longest_path_no_rows (fuel : nat) (start : cell) :
  longest_path fuel [] start = IndexError.
Proof. reflexivity. Qed.

(** C4 on the matrix without rows.  The empty list is a rectangular grid
    of no rows: no cell holds the start character and no path begins on
    one, so the cell count that the claim gives is 0.  The constructor
    subscripts [matrix[0]] with no test of [rows], and the program raises
    [IndexError] for every start character and every fuel; the constructor
    of the word search tests [rows > 0] before the same subscript, and its
    search of the empty board returns the empty set. *)
Theorem longest_path_empty_matrix_raises (start : cell) (nc : Z) (fuel : nat)
    (words : list (list cell)) :
  rectangular ([] : list (list cell)) 0 nc
  ∧ (∀ r c, cell_at ([] : list (list cell)) r c ≠ Some start)
  ∧ longest_start_path [] start 0
  ∧ longest_path fuel [] start = IndexError
  ∧ WordMatrix.word_search fuel ([] : list (list cell)) words = Ok ∅.
Proof.
  assert (∀ r c, cell_at ([] : list (list cell)) r c ≠ Some start) as Hnone.
  { intros r c. unfold cell_at. by destruct ((0 <=? r) && (0 <=? c)). }
  split; [split; [done|constructor]|]. split; [exact Hnone|].
  split; [|split; [apply longest_path_no_rows|reflexivity]].
  assert (∀ path, ¬ start_path [] start path) as Hno.
  { intros path (s & Hs & _). by apply Hnone in Hs. }
  split; [intros path Hpath; by apply Hno in Hpath|]. right. done.
Qed.

(** C1, amended.  On the matrix [[["A","B"],["D","C"]]] with start
    character ["A"] the search returns 4: the chain goes on from C at
    (1,1) to D at (1,0). *)
Theorem scenario_longest_is_four (fuel : nat) :
  longest_path (4 + fuel) scenario_matrix (chr "A") = Ok 4.
Proof.
  destruct (longest_path_spec scenario_matrix (chr "A") 2 2 4)
    as (L4 & H4 & Hlsp4); [exact scenario_rectangular|lia|simpl; lia|].
  assert (L4 = 4) as -> by (vm_compute in H4; congruence).
  destruct (longest_path_spec scenario_matrix (chr "A") 2 2 (4 + fuel))
    as (L & HL & Hlsp); [exact scenario_rectangular|lia|simpl; lia|].
  rewrite HL. f_equal. eapply longest_start_path_unique; done.
Qed.

(** C1 as stated: the search does not return 3 on the scenario. *)
Lemma scenario_longest_not_three :
  ¬ ∃ fuel, longest_path fuel scenario_matrix (chr "A") = Ok 3.
Proof.
  intros [fuel Hfuel].
  destruct (decide (fuel < 4)%nat) as [Hlt|Hge].
  - do 4 (destruct fuel as [|fuel]; [vm_compute in Hfuel; discriminate|]). lia.
  - destruct (longest_path_spec scenario_matrix (chr "A") 2 2 4)
      as (L4 & H4 & Hlsp4); [exact scenario_rectangular|lia|simpl; lia|].
    assert (L4 = 4) as -> by (vm_compute in H4; congruence).
    destruct (longest_path_spec scenario_matrix (chr "A") 2 2 fuel)
      as (L & HL & Hlsp); [exact scenario_rectangular|lia|simpl; lia|].
    assert (L = 4) as -> by (eapply longest_start_path_unique; done).
    rewrite HL in Hfuel. discriminate.
Qed.

End LongestPathFacts.

(* --------------------------------------------------------------------- *)
(** ** Single-result depth-first search (DFS.py)                         *)
(* --------------------------------------------------------------------- *)

Module DFSFacts.
Import DFS.

Section Facts.
Context {State Action : Type} `{Countable State}.
Variable p : Problem State Action.

(** *** Paths of the problem *)

(** The state reached from [s] by a sequence of actions. *)
Definition end_state (s : State) (acts : list Action) : State :=
  foldl (result p) s acts.

(** The states passed on the way, [s] included. *)
Fixpoint follows (s : State) (acts : list Action) : list State :=
  match acts with
  | [] => [s]
  | a :: acts' => s :: follows (result p s a) acts'
  end.

(** Every action is one that [actions] offers in the state where it is
    taken. *)
Fixpoint legal (s : State) (acts : list Action) : Prop :=
  match acts with
  | [] => True
  | a :: acts' => a ∈ actions p s ∧ legal (result p s a) acts'
  end.

(** The sum of [action_cost] over the steps. *)
Fixpoint cost_along (s : State) (acts : list Action) : Z :=
  match acts with
  | [] => 0
  | a :: acts' =>
      action_cost p s a (result p s a) + cost_along (result p s a) acts'
  end.

(** The states that the problem can reach from its initial state. *)
Inductive reachable : State → Prop :=
  | reachable_initial : reachable (initial p)
  | reachable_step s a :
      reachable s → a ∈ actions p s → reachable (result p s a).

(** The nodes that the search can build: the root, and the children
    that [expand] makes of such a node. *)
Inductive search_node : Node State Action → Prop :=
  | search_root : search_node (root (initial p))
  | search_child n c : search_node n → c ∈ expand p n → search_node c.

Lemma follows_snoc s acts a :
  follows s (acts ++ [a])
  = follows s acts ++ [result p (end_state s acts) a].
Proof.
  revert s. induction acts as [|b acts IH]; intros s; [done|].
  simpl. by rewrite IH.
Qed.

Lemma legal_snoc s acts a :
  legal s (acts ++ [a]) ↔ legal s acts ∧ a ∈ actions p (end_state s acts).
Proof.
  revert s. induction acts as [|b acts IH]; intros s; simpl; [tauto|].
  rewrite IH. tauto.
Qed.

Lemma cost_along_snoc s acts a :
  cost_along s (acts ++ [a])
  = cost_along s acts
    + action_cost p (end_state s acts) a (result p (end_state s acts) a).
Proof.
  revert s. induction acts as [|b acts IH]; intros s; simpl; [lia|].
  rewrite IH. unfold end_state. simpl. lia.
Qed.

Lemma end_state_snoc s acts a :
  end_state s (acts ++ [a]) = result p (end_state s acts) a.
Proof. unfold end_state. by rewrite foldl_snoc. Qed.

Lemma head_follows s acts : head (follows s acts) = Some s.
Proof. by destruct acts. Qed.

Lemma last_follows s acts : last (follows s acts) = Some (end_state s acts).
Proof.
  induction acts as [|a acts IH] using rev_ind; [done|].
  by rewrite follows_snoc, last_snoc, end_state_snoc.
Qed.

Lemma follows_pairs s acts i s1 s2 :
  legal s acts →
  follows s acts !! i = Some s1 → follows s acts !! S i = Some s2 →
  ∃ a, a ∈ actions p s1 ∧ result p s1 a = s2.
Proof.
  revert s i. induction acts as [|a acts IH]; intros s i Hlegal H1 H2.
  { destruct i; simpl in *; done. }
  destruct Hlegal as [Ha Hlegal]. destruct i as [|i].
  - simpl in H1, H2. inversion H1; subst s1.
    rewrite <- head_lookup, head_follows in H2. inversion H2; subst. eauto.
  - simpl in H1. by eapply IH.
Qed.

(** What a node built by the search records. *)
Lemma search_node_spec n :
  search_node n →
  ∃ acts, legal (initial p) acts
          ∧ path_states (Some n) = follows (initial p) acts
          ∧ state n = end_state (initial p) acts
          ∧ path_cost n = cost_along (initial p) acts.
Proof.
  induction 1 as [|n c Hn (acts & Hlegal & Hpath & Hstate & Hcost) Hc].
  { exists []. done. }
  unfold expand in Hc. apply list_elem_of_fmap in Hc as (a & -> & Ha).
  exists (acts ++ [a]). split; [|split; [|split]].
  - apply legal_snoc. split; [done|]. by rewrite <- Hstate.
  - rewrite follows_snoc, <- Hpath, <- Hstate. reflexivity.
  - by rewrite end_state_snoc, <- Hstate.
  - rewrite cost_along_snoc, <- Hstate, <- Hcost. done.
Qed.

Lemma search_node_reachable n : search_node n → reachable (state n).
Proof.
  induction 1 as [|n c Hn IH Hc]; [constructor|].
  unfold expand in Hc. apply list_elem_of_fmap in Hc as (a & -> & Ha).
  by constructor.
Qed.

(** *** The loop *)

Lemma loop_body_snoc rest node explored :
  loop_body p (rest ++ [node]) explored =
  if decide (state node ∈ explored) then Continue rest explored
  else if is_goal p (state node)
       then Return (Some (path_states (Some node)), Finite (path_cost node))
       else Continue (rest ++ expand p node) ({[state node]} ∪ explored).
Proof. unfold loop_body. by rewrite py_pop_snoc. Qed.

Lemma while_frontier_turns fuel frontier explored :
  while_frontier fuel p frontier explored =
  match turns fuel p frontier explored with
  | Return r => Ok r
  | Continue _ _ => OutOfFuel
  end.
Proof.
  revert frontier explored. induction fuel as [|fuel IH]; intros; [done|].
  simpl. destruct (loop_body p frontier explored); [apply IH|done].
Qed.

(** A path that the loop returns ends a node built by the search, in a
    goal state. *)
Lemma while_frontier_returns fuel frontier explored path c :
  Forall search_node frontier →
  while_frontier fuel p frontier explored = Ok (Some path, c) →
  ∃ n, search_node n ∧ is_goal p (state n) = true
       ∧ path = path_states (Some n) ∧ c = Finite (path_cost n).
Proof.
  revert frontier explored.
  induction fuel as [|fuel IH]; intros frontier explored Hfr Hret; [done|].
  simpl in Hret.
  destruct frontier as [|node rest _] using rev_ind; [done|].
  apply Forall_app in Hfr as [Hrest Hnode].
  rewrite Forall_singleton in Hnode.
  rewrite loop_body_snoc in Hret.
  destruct (decide (state node ∈ explored)); [by eapply IH|].
  destruct (is_goal p (state node)) eqn:Hgoal.
  - inversion Hret; subst. by exists node.
  - eapply IH; [|done]. apply Forall_app. split; [done|].
    apply Forall_forall. intros c' Hc'. by eapply search_child.
Qed.

(** *** Termination on a finite state space *)

(** What is left to do: the nodes on the frontier, and the children
    that the states not yet explored can still push. *)
Definition pending (S : gset State) (explored : gset State) : nat :=
  sum_list_with (λ s, length (actions p s)) (elements (S ∖ explored)).

Lemma pending_explore (S explored : gset State) (s : State) :
  s ∈ S → s ∉ explored →
  pending S explored
  = (length (actions p s) + pending S ({[s]} ∪ explored))%nat.
Proof.
  intros HS HE. unfold pending.
  assert (S ∖ explored = {[s]} ∪ S ∖ ({[s]} ∪ explored)) as ->.
  { apply set_eq. intros x. set_unfold.
    destruct (decide (x = s)); naive_solver. }
  rewrite elements_union_singleton by set_solver. reflexivity.
Qed.

Lemma length_expand n : length (expand p n) = length (actions p (state n)).
Proof. unfold expand. by rewrite length_fmap. Qed.

Lemma while_frontier_exhausts (S : gset State) fuel frontier explored :
  (∀ s, reachable s → s ∈ S) →
  (∀ s, reachable s → is_goal p s = false) →
  Forall search_node frontier →
  (length frontier + pending S explored < fuel)%nat →
  while_frontier fuel p frontier explored = Ok (None, Infinity).
Proof.
  intros HS Hgoal. revert frontier explored.
  induction fuel as [|fuel IH]; intros frontier explored Hfr Hfuel; [lia|].
  simpl.
  destruct frontier as [|node rest _] using rev_ind; [done|].
  apply Forall_app in Hfr as [Hrest Hnode].
  rewrite Forall_singleton in Hnode.
  rewrite length_app in Hfuel. simpl in Hfuel.
  rewrite loop_body_snoc.
  destruct (decide (state node ∈ explored)) as [Hin|Hout].
  { apply IH; [done|lia]. }
  pose proof (search_node_reachable _ Hnode) as Hreach.
  rewrite (Hgoal _ Hreach).
  apply IH.
  - apply Forall_app. split; [done|].
    apply Forall_forall. intros c' Hc'. by eapply search_child.
  - rewrite (pending_explore S explored (state node)) in Hfuel by auto.
    rewrite length_app, length_expand. lia.
Qed.

(** *** The order of exploration *)

(** Nodes below the ones just pushed stay where they are until the
    pushed nodes, and all that they push in turn, are gone. *)
Lemma turns_stack (rest : list (Node State Action)) n :
  ∀ top explored,
    match turns n p (rest ++ top) explored with
    | Return _ => True
    | Continue frontier _ =>
        (∃ top', frontier = rest ++ top') ∨
        (∃ j explored', (j ≤ n)%nat
           ∧ turns j p (rest ++ top) explored = Continue rest explored')
    end.
Proof.
  induction n as [|n IH]; intros top explored.
  { left. by exists top. }
  destruct top as [|node top _] using rev_ind.
  { destruct (turns _ _ _ _); [|done]. right.
    exists 0%nat, explored. split; [lia|]. by rewrite app_nil_r. }
  assert (∀ top' explored',
    loop_body p (rest ++ top ++ [node]) explored
      = Continue (rest ++ top') explored' →
    match turns (S n) p (rest ++ top ++ [node]) explored with
    | Return _ => True
    | Continue frontier _ =>
        (∃ top', frontier = rest ++ top') ∨
        (∃ j explored', (j ≤ S n)%nat
           ∧ turns j p (rest ++ top ++ [node]) explored
             = Continue rest explored')
    end) as Hgo.
  { intros top' explored' Hbody. simpl. rewrite Hbody.
    specialize (IH top' explored').
    destruct (turns n p (rest ++ top') explored'); [|done].
    destruct IH as [IH|(j & E' & Hj & Hturns)]; [by left|].
    right. exists (S j), E'. split; [lia|]. simpl. by rewrite Hbody. }
  pose proof (loop_body_snoc (rest ++ top) node explored) as Hbody.
  rewrite <- app_assoc in Hbody.
  destruct (decide (state node ∈ explored)).
  { by apply (Hgo top explored). }
  destruct (is_goal p (state node)).
  { simpl. by rewrite Hbody. }
  apply (Hgo (top ++ expand p node) ({[state node]} ∪ explored)).
  by rewrite Hbody, <- app_assoc.
Qed.

(** The order that would let the nodes already on the frontier go
    first: after a turn that expands a node above a non-empty rest of the
    frontier, the node taken next is one of that rest. *)
Definition older_nodes_first : Prop :=
  ∀ rest node explored frontier' explored',
    rest ≠ [] → state node ∉ explored → expand p node ≠ [] →
    loop_body p (rest ++ [node]) explored = Continue frontier' explored' →
    ∃ next below, py_pop frontier' = Some (next, below) ∧ next ∈ rest.

(** *** Claims *)

(** C7.  Whenever the search returns a path, the path starts in the
    initial state, ends in a state that satisfies [is_goal], every
    consecutive pair of states is linked by an action that [actions]
    offers and [result] maps to the second state, and the returned cost
    is the sum of [action_cost] over the steps of the path. *)
Theorem path_validity fuel path c :
  depth_first_search fuel p = Ok (Some path, c) →
  head path = Some (initial p)
  ∧ (∃ sk, last path = Some sk ∧ is_goal p sk = true)
  ∧ (∀ i s1 s2, path !! i = Some s1 → path !! S i = Some s2 →
                ∃ a, a ∈ actions p s1 ∧ result p s1 a = s2)
  ∧ (∃ acts, legal (initial p) acts ∧ path = follows (initial p) acts
             ∧ c = Finite (cost_along (initial p) acts)).
Proof.
  intros Hret. apply while_frontier_returns in Hret
    as (n & Hn & Hgoal & -> & ->).
  2:{ apply Forall_singleton. constructor. }
  destruct (search_node_spec n Hn) as (acts & Hlegal & Hpath & Hstate & Hcost).
  rewrite Hpath. split; [apply head_follows|]. split; [|split].
  - exists (state n). split; [|done]. by rewrite last_follows, Hstate.
  - intros i s1 s2. by apply follows_pairs.
  - exists acts. by rewrite Hcost.
Qed.

(** C9.  When the states reachable from the initial state lie in a
    finite set closed under the actions and none of them satisfies
    [is_goal], the search ends, for every amount of fuel above a bound,
    with the pair [(None, math.inf)] and not with an exception. *)
Theorem no_path_outcome (S : gset State) :
  initial p ∈ S →
  (∀ s a, s ∈ S → a ∈ actions p s → result p s a ∈ S) →
  (∀ s, reachable s → is_goal p s = false) →
  ∃ fuel0, ∀ fuel, (fuel0 ≤ fuel)%nat →
    depth_first_search fuel p = Ok (None, Infinity).
Proof.
  intros Hinit Hclosed Hgoal. exists (2 + pending S ∅)%nat.
  intros fuel Hfuel. apply (while_frontier_exhausts S).
  - induction 1; auto.
  - done.
  - apply Forall_singleton. constructor.
  - simpl. lia.
Qed.

(** C2, amended.  When a node is taken from the frontier and expanded,
    its children go on top of the frontier: the child pushed last is
    the node taken next, and the nodes that were on the frontier
    before stay below, untouched, until the children and everything
    pushed after them have been taken. *)
Theorem children_explored_first rest node explored :
  state node ∉ explored → is_goal p (state node) = false →
  loop_body p (rest ++ [node]) explored
    = Continue (rest ++ expand p node) ({[state node]} ∪ explored)
  ∧ (∀ kids child, expand p node = kids ++ [child] →
       py_pop (rest ++ expand p node) = Some (child, rest ++ kids))
  ∧ (∀ n,
       match turns n p (rest ++ expand p node) ({[state node]} ∪ explored) with
       | Return _ => True
       | Continue frontier _ =>
           (∃ top, frontier = rest ++ top) ∨
           (∃ j explored', (j ≤ n)%nat
              ∧ turns j p (rest ++ expand p node) ({[state node]} ∪ explored)
                = Continue rest explored')
       end).
Proof.
  intros Hnew Hgoal. split; [|split].
  - rewrite loop_body_snoc, Hgoal. by rewrite decide_False.
  - intros kids child ->. by rewrite app_assoc, py_pop_snoc.
  - intros n. apply turns_stack.
Qed.
End Facts.

(** *** [ItalyGraphProblem] *)

(** The cost that [expand] asks for is that of an item of [graph[s]]: the
    [KeyError] of [graph[s][s1]] is out of its reach. *)
Lemma italy_cost_present {State : Type} `{Countable State}
    (graph : gmap State (list (State * Z))) (s a : State) :
  a ∈ italy_actions graph s →
  ∃ d c, graph !! s = Some d ∧ (a, c) ∈ d ∧ italy_cost graph s a = c.
Proof.
  unfold italy_actions, italy_cost. destruct (graph !! s) as [d|]; [|by intros ?%elem_of_nil].
  intros Ha. apply list_elem_of_fmap in Ha as ([a' c'] & E & Hin).
  simpl in E. subst a'.
  destruct (list_find_elem_of (λ kv : State * Z, kv.1 = a) d (a, c') Hin eq_refl)
    as [[i [a2 c2]] Hfind].
  rewrite Hfind. apply list_find_Some in Hfind as (Hi & E & _). simpl in E. subst a2.
  exists d, c2. split; [done|]. split; [|done]. by eapply list_elem_of_lookup_2.
Qed.

(** *** A small road map *)

Definition roads : gmap string (list (string * Z)) :=
  list_to_map
    [("Turin", [("Ivrea", 51); ("Novara", 95)]);
     ("Ivrea", [("Turin", 51)]);
     ("Novara", [("Turin", 95); ("Milan", 52)]);
     ("Milan", [("Novara", 52)])]%string.

Definition to_milan : Problem string string :=
  ItalyGraphProblem roads "Turin" "Milan".

Definition to_rome : Problem string string :=
  ItalyGraphProblem roads "Turin" "Rome".

Definition towns : gset string :=
  list_to_set ["Turin"; "Ivrea"; "Novara"; "Milan"]%string.

Definition node_turin : Node string string := root "Turin"%string.
Definition node_ivrea : Node string string :=
  mkNode "Ivrea"%string (Some node_turin) (Some "Ivrea"%string) 51.
Definition node_novara : Node string string :=
  mkNode "Novara"%string (Some node_turin) (Some "Novara"%string) 95.

Lemma towns_closed s a :
  s ∈ towns → a ∈ actions to_rome s → result to_rome s a ∈ towns.
Proof.
  unfold towns. intros Hs Ha. set_unfold in Hs.
  destruct Hs as [->|[->|[->|[->|[]]]]]; vm_compute in Ha; set_unfold in Ha;
    simpl; set_unfold; naive_solver.
Qed.

Lemma rome_unreachable s : reachable to_rome s → is_goal to_rome s = false.
Proof.
  intros Hs. assert (s ∈ towns) as Hin.
  { induction Hs as [|s a _ IH Ha]; [by vm_compute|by eapply towns_closed]. }
  unfold towns in Hin. set_unfold in Hin.
  destruct Hin as [->|[->|[->|[->|[]]]]]; done.
Qed.

Lemma path_validity_witness :
  depth_first_search 4 to_milan
    = Ok (Some ["Turin"; "Novara"; "Milan"]%string, Finite 147)
  ∧ head ["Turin"; "Novara"; "Milan"]%string = Some (initial to_milan)
  ∧ (∃ sk, last ["Turin"; "Novara"; "Milan"]%string = Some sk
           ∧ is_goal to_milan sk = true)
  ∧ (∀ i s1 s2, ["Turin"; "Novara"; "Milan"]%string !! i = Some s1 →
                ["Turin"; "Novara"; "Milan"]%string !! S i = Some s2 →
                ∃ a, a ∈ actions to_milan s1 ∧ result to_milan s1 a = s2)
  ∧ (∃ acts, legal to_milan (initial to_milan) acts
             ∧ ["Turin"; "Novara"; "Milan"]%string
               = follows to_milan (initial to_milan) acts
             ∧ Finite 147 = Finite (cost_along to_milan (initial to_milan) acts)).
Proof.
  split; [by vm_compute|].
  apply (path_validity to_milan 4). by vm_compute.
Defined.

Lemma no_path_outcome_witness :
  initial to_rome ∈ towns
  ∧ (∀ s a, s ∈ towns → a ∈ actions to_rome s → result to_rome s a ∈ towns)
  ∧ (∀ s, reachable to_rome s → is_goal to_rome s = false)
  ∧ ∃ fuel0, ∀ fuel, (fuel0 ≤ fuel)%nat →
      depth_first_search fuel to_rome = Ok (None, Infinity).
Proof.
  split; [by vm_compute|]. split; [exact towns_closed|].
  split; [exact rome_unreachable|].
  apply (no_path_outcome to_rome towns).
  - by vm_compute.
  - exact towns_closed.
  - exact rome_unreachable.
Defined.

Lemma children_explored_first_witness :
  (state node_novara ∉ ({["Turin"%string]} : gset string))
  ∧ is_goal to_rome (state node_novara) = false
  ∧ loop_body to_rome ([node_ivrea] ++ [node_novara]) {["Turin"%string]}
      = Continue ([node_ivrea] ++ expand to_rome node_novara)
                 ({[state node_novara]} ∪ {["Turin"%string]})
    ∧ (∀ kids child, expand to_rome node_novara = kids ++ [child] →
         py_pop ([node_ivrea] ++ expand to_rome node_novara)
         = Some (child, [node_ivrea] ++ kids))
    ∧ (∀ n,
         match turns n to_rome ([node_ivrea] ++ expand to_rome node_novara)
                 ({[state node_novara]} ∪ {["Turin"%string]}) with
         | Return _ => True
         | Continue frontier _ =>
             (∃ top, frontier = [node_ivrea] ++ top) ∨
             (∃ j explored', (j ≤ n)%nat
                ∧ turns j to_rome ([node_ivrea] ++ expand to_rome node_novara)
                    ({[state node_novara]} ∪ {["Turin"%string]})
                  = Continue [node_ivrea] explored')
         end).
Proof.
  split; [by vm_compute|]. split; [by vm_compute|].
  apply (children_explored_first to_rome [node_ivrea] node_novara).
  - by vm_compute.
  - by vm_compute.
Defined.

(** C2 as stated fails: after the first turn of the search for Rome the
    frontier holds the nodes of Ivrea and Novara; the second turn takes
    Novara and pushes its children, and the node taken next is the child
    for Milan, not the node of Ivrea that was on the frontier before. *)
Lemma children_not_after_frontier :
  turns 1 to_rome [root (initial to_rome)] ∅
    = Continue [node_ivrea; node_novara] {["Turin"%string]}
  ∧ ¬ older_nodes_first to_rome.
Proof.
  split; [by vm_compute|].
  intros Hclaim.
  destruct (Hclaim [node_ivrea] node_novara {["Turin"%string]}
              ([node_ivrea] ++ expand to_rome node_novara)
              ({[state node_novara]} ∪ {["Turin"%string]}))
    as (next & below & Hpop & Hnext); [done|by vm_compute|done|by vm_compute|].
  vm_compute in Hpop. inversion Hpop; subst.
  apply list_elem_of_singleton in Hnext. discriminate.
Qed.

End DFSFacts.

(* --------------------------------------------------------------------- *)
(** ** Flood fill (flood_fill.py)                                        *)
(* --------------------------------------------------------------------- *)

Module FloodFillFacts.
Import FloodFill.

Definition dirs4 : list (Z * Z) := [(-1, 0); (1, 0); (0, -1); (0, 1)].

(** *** The matrix as the store shows it *)

Section Contents.
Context {color : Type}.

(** The rows of the matrix at an address, read one after the other; a
    row object that the matrix holds twice is read twice. *)
Definition contents (h : store color) (a : positive) : list (list color) :=
  deref_row h <$> deref_grid h a.

Lemma contents_lookup (h : store color) (a : positive) (i : nat) :
  contents h a !! i = deref_row h <$> deref_grid h a !! i.
Proof. apply list_lookup_fmap. Qed.

Lemma contents_row (h : store color) (a : positive) (nr nc x : Z) :
  rectangular (contents h a) nr nc → 0 ≤ x < nr →
  ∃ row, deref_grid h a !! Z.to_nat x = Some row
         ∧ py_getitem (deref_grid h a) x = Ok row
         ∧ Z.of_nat (length (deref_row h row)) = nc.
Proof.
  intros [Hrows Hcols] Hx. unfold contents in Hrows. rewrite length_fmap in Hrows.
  destruct (lookup_lt_is_Some_2 (deref_grid h a) (Z.to_nat x)) as [row Hrow];
    [lia|].
  exists row. split; [done|]. split; [apply py_getitem_lookup; [lia|done]|].
  rewrite Forall_forall in Hcols. apply Hcols.
  apply (list_elem_of_lookup_2 _ (Z.to_nat x)).
  by rewrite contents_lookup, Hrow.
Qed.

Lemma cell_at_contents (h : store color) (a : positive) (r c : Z) (row : positive) :
  0 ≤ r → 0 ≤ c → deref_grid h a !! Z.to_nat r = Some row →
  cell_at (contents h a) r c = deref_row h row !! Z.to_nat c.
Proof.
  intros Hr Hc Hrow. unfold cell_at. zbool.
  by rewrite contents_lookup, Hrow.
Qed.
End Contents.

Section Facts.
Context {color : Type} `{EqDecision color}.
Variable self : FloodFillProblem color.

Let l := matrix self.
Let tgt := target_color self.
Let repl := replacement_color self.

(** *** The region *)

(** [reach m s c]: the cell [c] is linked to [s] by a path of side
    neighbours all of whose cells, [s] included, hold the target color
    in [m]. *)
Inductive reach (m : list (list color)) (s : Z * Z) : Z * Z → Prop :=
  | reach_start : cell_at m s.1 s.2 = Some tgt → reach m s s
  | reach_step c d :
      reach m s c → d ∈ dirs4 →
      cell_at m (c.1 + d.1) (c.2 + d.2) = Some tgt →
      reach m s (c.1 + d.1, c.2 + d.2).

(** A cell changes from the target color to the replacement color, or
    not at all. *)
Definition recolors (m m' : list (list color)) : Prop :=
  ∀ r c, cell_at m' r c = cell_at m r c
         ∨ (cell_at m r c = Some tgt ∧ cell_at m' r c = Some repl).

(** No side neighbour of the cell holds the target color. *)
Definition closed (m : list (list color)) (r c : Z) : Prop :=
  ∀ d, d ∈ dirs4 → cell_at m (r + d.1) (c + d.2) ≠ Some tgt.

(** The cells that hold the target color. *)
Definition targets (m : list (list color)) (nr nc : Z) : gset (Z * Z) :=
  filter (λ s, cell_at m s.1 s.2 = Some tgt) (grid_cells nr nc).

(** What a run leaves alone: the lists of rows, all of them, and every
    row object that is not a row of the matrix. *)
Definition frame (h h' : store color) : Prop :=
  grids h' = grids h
  ∧ ∀ a, a ∉ deref_grid h l → lines h' !! a = lines h !! a.

Lemma elem_of_targets m nr nc (s : Z * Z) :
  rectangular m nr nc →
  s ∈ targets m nr nc ↔ cell_at m s.1 s.2 = Some tgt.
Proof.
  intros Hm. unfold targets. rewrite elem_of_filter, elem_of_grid_cells.
  split; [tauto|]. intros Hs. split; [done|]. by eapply cell_at_Some.
Qed.

Lemma reach_target m s c : reach m s c → cell_at m c.1 c.2 = Some tgt.
Proof. by destruct 1. Qed.

Lemma reach_source m s c : reach m s c → cell_at m s.1 s.2 = Some tgt.
Proof. by induction 1. Qed.

Lemma reach_trans m s c c' : reach m s c → reach m c c' → reach m s c'.
Proof. intros Hsc. induction 1; [done|]. by apply reach_step. Qed.

Lemma reach_mono m m' s c :
  (∀ r c, cell_at m' r c = Some tgt → cell_at m r c = Some tgt) →
  reach m' s c → reach m s c.
Proof.
  intros Hsub. induction 1.
  - apply reach_start. auto.
  - apply reach_step; auto.
Qed.

Lemma recolors_refl m : recolors m m.
Proof. intros r c. by left. Qed.

Lemma recolors_trans m1 m2 m3 :
  recolors m1 m2 → recolors m2 m3 → recolors m1 m3.
Proof.
  intros H12 H23 r c.
  destruct (H12 r c) as [E12|[E1 E2]], (H23 r c) as [E23|[E2' E3]].
  - left. congruence.
  - right. split; congruence.
  - right. split; congruence.
  - right. done.
Qed.

Lemma recolors_target m m' r c :
  recolors m m' → cell_at m' r c = Some tgt → cell_at m r c = Some tgt.
Proof.
  intros Hrec Hc. destruct (Hrec r c) as [E|[E1 E2]]; congruence.
Qed.

Lemma recolors_not_target m m' r c :
  recolors m m' → cell_at m r c ≠ Some tgt → cell_at m' r c ≠ Some tgt.
Proof. intros Hrec Hc Hc'. by eapply Hc, recolors_target. Qed.

Lemma recolors_targets m m' nr nc :
  rectangular m nr nc → rectangular m' nr nc → recolors m m' →
  targets m' nr nc ⊆ targets m nr nc.
Proof.
  intros Hm Hm' Hrec s. rewrite !elem_of_targets by done.
  by apply recolors_target.
Qed.

Lemma frame_refl (h : store color) : frame h h.
Proof. by split. Qed.

Lemma frame_trans (h1 h2 h3 : store color) :
  frame h1 h2 → frame h2 h3 → frame h1 h3.
Proof.
  intros [Hg12 Hl12] [Hg23 Hl23]. split; [congruence|].
  intros a Ha. rewrite Hl23, Hl12; [done..|].
  unfold deref_grid in *. by rewrite Hg12.
Qed.

Lemma frame_rows (h h' : store color) :
  frame h h' → deref_grid h' l = deref_grid h l.
Proof. intros [Hg _]. unfold deref_grid. by rewrite Hg. Qed.

(** *** Reading and writing cells *)

(** The write [self.matrix[x][y] = v] changes one row object: column [y]
    of every row of the matrix that is this object. *)
Lemma matrix_set_spec (h : store color) nr nc x y (v : color) :
  rectangular (contents h l) nr nc → 0 ≤ x < nr → 0 ≤ y < nc →
  ∃ row h1, deref_grid h l !! Z.to_nat x = Some row
    ∧ matrix_set self h x y v = Ok h1
    ∧ frame h h1
    ∧ rectangular (contents h1 l) nr nc
    ∧ ∀ r c, cell_at (contents h1 l) r c
             = (if decide (0 ≤ r ∧ deref_grid h l !! Z.to_nat r = Some row
                           ∧ c = y)
                then Some v else cell_at (contents h l) r c).
Proof.
  intros Hm Hx Hy.
  destruct (contents_row h l nr nc x Hm Hx) as (row & Hrow & Hget & Hlen).
  set (h1 := mkStore (grids h)
               (<[row := <[Z.to_nat y := v]> (deref_row h row)]> (lines h))).
  assert (∀ a, deref_row h1 a
               = if decide (a = row) then <[Z.to_nat y := v]> (deref_row h row)
                 else deref_row h a) as Hrows1.
  { intros a. unfold deref_row, h1. simpl. case_decide as E.
    - subst a. by rewrite lookup_total_insert_eq.
    - by rewrite lookup_total_insert_ne. }
  assert (∀ a, length (deref_row h1 a) = length (deref_row h a)) as Hlen1.
  { intros a. rewrite Hrows1. case_decide as E; [|done].
    subst a. by rewrite length_insert. }
  exists row, h1. split; [done|]. split; [|split; [|split]].
  - unfold matrix_set. fold l. rewrite Hget, bind_Ok.
    unfold py_setitem. rewrite py_index_in_range by lia. done.
  - split; [done|]. intros a Ha. unfold h1. simpl.
    apply lookup_insert_ne. intros ->. apply Ha.
    by eapply list_elem_of_lookup_2.
  - destruct Hm as [Hnr Hcols]. unfold contents in *.
    change (deref_grid h1 l) with (deref_grid h l).
    split; [by rewrite length_fmap in *|].
    rewrite Forall_fmap in *. eapply Forall_impl; [exact Hcols|].
    intros a Ha. simpl in *. by rewrite Hlen1.
  - intros r c. case_decide as E.
    + destruct E as (Hr & Hrr & ->).
      rewrite (cell_at_contents h1 l r y row) by (lia || done).
      rewrite Hrows1, decide_True by done.
      apply list_lookup_insert_eq. lia.
    + unfold cell_at.
      destruct (Z.leb_spec 0 r) as [Hr|Hr], (Z.leb_spec 0 c) as [Hc|Hc];
        simpl; try done.
      rewrite !contents_lookup.
      change (deref_grid h1 l) with (deref_grid h l).
      destruct (deref_grid h l !! Z.to_nat r) as [a|] eqn:Ha; [|done].
      simpl. rewrite Hrows1. case_decide as Ea; [|done]. subst a.
      apply list_lookup_insert_ne. intros Ey. apply E.
      split; [done|]. split; [done|]. lia.
Qed.

(** When the rows are distinct objects, the write changes one cell. *)
Lemma distinct_rows_cell (h : store color) (x r : Z) (row : positive) :
  NoDup (deref_grid h l) → 0 ≤ x →
  deref_grid h l !! Z.to_nat x = Some row →
  (0 ≤ r ∧ deref_grid h l !! Z.to_nat r = Some row) ↔ r = x.
Proof.
  intros Hnd Hx Hrow. split.
  - intros [Hr Hrr].
    pose proof (NoDup_lookup _ _ _ _ Hnd Hrr Hrow). lia.
  - intros ->. done.
Qed.

Lemma is_valid_spec (h : store color) nr nc x y :
  rectangular (contents h l) nr nc → 0 < nr →
  is_valid self h x y
  = Ok (bool_decide (cell_at (contents h l) x y = Some tgt)).
Proof.
  intros Hm Hnr. unfold is_valid. fold l.
  destruct (contents_row h l nr nc 0 Hm ltac:(lia)) as (row0 & _ & -> & Hlen).
  rewrite bind_Ok. cbv zeta. rewrite Hlen.
  assert (Z.of_nat (length (deref_grid h l)) = nr) as ->.
  { destruct Hm as [-> _]. unfold contents. by rewrite length_fmap. }
  destruct (decide (0 ≤ x < nr ∧ 0 ≤ y < nc)) as [[Hx Hy]|Hout].
  - zbool.
    destruct (contents_row h l nr nc x Hm Hx) as (row & Hrow & -> & Hrlen).
    rewrite bind_Ok.
    destruct (lookup_lt_is_Some_2 (deref_row h row) (Z.to_nat y)) as [u Hu];
      [lia|].
    rewrite (py_getitem_lookup _ y u) by (lia || done). rewrite bind_Ok.
    rewrite (cell_at_contents h l x y row) by (lia || done). rewrite Hu.
    f_equal. apply bool_decide_ext. unfold tgt. split; congruence.
  - rewrite (cell_at_outside _ nr nc x y) by done.
    rewrite bool_decide_eq_false_2 by done.
    destruct ((0 <=? x) && (x <? nr)) eqn:Ex; [|done]. simpl.
    destruct ((0 <=? y) && (y <? nc)) eqn:Ey; [|done]. lia.
Qed.

(** *** The recursive walk *)

(** A cell that the walk has recolored. *)
Definition fresh (m m' : list (list color)) (r c : Z) : Prop :=
  cell_at m r c = Some tgt ∧ cell_at m' r c = Some repl.

(** What a call [dfs(x, y)] that starts on the store [h] and ends on
    [h'] has done.  The last two lines need rows that are distinct
    objects. *)
Record dfs_post (h : store color) (nr nc x y : Z) (h' : store color)
    : Prop := mk_dfs_post {
  post_frame : frame h h';
  post_rect : rectangular (contents h' l) nr nc;
  post_recolors : recolors (contents h l) (contents h' l);
  post_here : cell_at (contents h' l) x y ≠ Some tgt;
  post_closed : NoDup (deref_grid h l) →
    ∀ r c, fresh (contents h l) (contents h' l) r c →
           closed (contents h' l) r c;
  post_reach : NoDup (deref_grid h l) →
    ∀ r c, fresh (contents h l) (contents h' l) r c →
           reach (contents h l) (x, y) (r, c);
}.

Lemma dfs_S fuel x y (h : store color) :
  dfs (S fuel) self x y h =
  (v ← is_valid self h x y;
   if negb v then Ok h
   else
     h ← matrix_set self h x y repl;
     foldl (λ acc '(dx, dy), h ← acc; dfs fuel self (x + dx) (y + dy) h)
           (Ok h) dirs4).
Proof. reflexivity. Qed.

Lemma fresh_split m1 m2 m3 r c :
  recolors m1 m2 → fresh m1 m3 r c → fresh m1 m2 r c ∨ fresh m2 m3 r c.
Proof.
  intros H12 [E1 E3]. destruct (H12 r c) as [E|[_ E]].
  - right. split; congruence.
  - left. done.
Qed.

Lemma closed_recolors m m' r c : recolors m m' → closed m r c → closed m' r c.
Proof. intros Hrec Hcl d Hd. eapply recolors_not_target; eauto. Qed.

Section Walk.
Variables nr nc : Z.
Hypothesis Hcolors : tgt ≠ repl.
Hypothesis Hnr : 0 < nr.

(** The calls on the neighbours, given what one call does. *)
Lemma dfs_dirs fuel x y (ds : list (Z * Z)) :
  (∀ x y (h : store color),
     rectangular (contents h l) nr nc →
     (size (targets (contents h l) nr nc) < fuel)%nat →
     ∃ h', dfs fuel self x y h = Ok h' ∧ dfs_post h nr nc x y h') →
  ∀ h : store color,
    rectangular (contents h l) nr nc →
    (size (targets (contents h l) nr nc) < fuel)%nat →
    ∃ h', foldl (λ acc '(dx, dy), h ← acc; dfs fuel self (x + dx) (y + dy) h)
                (Ok h) ds = Ok h'
          ∧ frame h h'
          ∧ rectangular (contents h' l) nr nc
          ∧ recolors (contents h l) (contents h' l)
          ∧ (∀ d, d ∈ ds →
                  cell_at (contents h' l) (x + d.1) (y + d.2) ≠ Some tgt)
          ∧ (NoDup (deref_grid h l) →
             ∀ r c, fresh (contents h l) (contents h' l) r c →
                    closed (contents h' l) r c)
          ∧ (NoDup (deref_grid h l) →
             ∀ r c, fresh (contents h l) (contents h' l) r c →
               ∃ d, d ∈ ds ∧ reach (contents h l) (x + d.1, y + d.2) (r, c)).
Proof.
  intros Hcall h Hm Hfuel.
  induction ds as [|d ds IH] using rev_ind.
  { exists h. simpl.
    split; [done|]. split; [apply frame_refl|]. split; [done|].
    split; [apply recolors_refl|].
    split; [intros d Hd; by apply elem_of_nil in Hd|].
    split; intros _ r c [E1 E2]; congruence. }
  destruct IH as (h2 & Hfold & Hfr2 & Hm2 & Hrec2 & Hdone2 & Hcl2 & Hreach2).
  rewrite foldl_snoc, Hfold. destruct d as [dx dy]. simpl.
  destruct (Hcall (x + dx) (y + dy) h2)
    as (h3 & Hdfs & [Hfr3 Hm3 Hrec3 Hhere3 Hcl3 Hreach3]).
  { done. }
  { eapply Nat.le_lt_trans; [|apply Hfuel].
    apply subseteq_size. by apply recolors_targets. }
  rewrite Hdfs.
  exists h3. split; [done|]. split; [by eapply frame_trans|]. split; [done|].
  split; [by eapply recolors_trans|]. split; [|split].
  - intros d Hd. apply elem_of_app in Hd as [Hd|Hd].
    + eapply recolors_not_target; eauto.
    + by apply list_elem_of_singleton in Hd as ->.
  - intros Hnd r c Hfresh.
    assert (NoDup (deref_grid h2 l)) as Hnd2 by by rewrite (frame_rows h h2).
    destruct (fresh_split _ _ _ r c Hrec2 Hfresh) as [Hf|Hf].
    + eapply closed_recolors; eauto.
    + auto.
  - intros Hnd r c Hfresh.
    assert (NoDup (deref_grid h2 l)) as Hnd2 by by rewrite (frame_rows h h2).
    destruct (fresh_split _ _ _ r c Hrec2 Hfresh) as [Hf|Hf].
    + destruct (Hreach2 Hnd r c Hf) as (d & Hd & Hr).
      exists d. split; [|done]. apply elem_of_app. by left.
    + exists (dx, dy). split; [apply elem_of_app; right; by left|].
      eapply reach_mono; [|by apply Hreach3].
      intros r' c'. by apply recolors_target.
Qed.

(** With fuel for every cell of the target color, a call returns; cells
    only go from the target color to the replacement color; and when the
    rows are distinct objects it has recolored cells of the region of its
    coordinate only, each of them with no target-colored neighbour
    left. *)
Lemma dfs_spec fuel :
  ∀ x y (h : store color),
    rectangular (contents h l) nr nc →
    (size (targets (contents h l) nr nc) < fuel)%nat →
    ∃ h', dfs fuel self x y h = Ok h' ∧ dfs_post h nr nc x y h'.
Proof.
  induction fuel as [|fuel IH]; intros x y h Hm Hfuel; [lia|].
  rewrite dfs_S, (is_valid_spec h nr nc) by done. rewrite bind_Ok.
  destruct (decide (cell_at (contents h l) x y = Some tgt)) as [Hxy|Hxy].
  2:{ rewrite bool_decide_eq_false_2 by done. simpl.
      exists h. split; [done|].
      split; [apply frame_refl|done|apply recolors_refl|done|..];
        intros _ r c [E1 E2]; congruence. }
  rewrite bool_decide_eq_true_2 by done. cbn [negb].
  pose proof (cell_at_Some _ _ _ _ _ _ Hm Hxy) as [Hx Hy].
  destruct (matrix_set_spec h nr nc x y repl Hm Hx Hy)
    as (row & h1 & Hrow & Hset & Hfr1 & Hm1 & Hcell1).
  rewrite Hset, bind_Ok.
  assert (recolors (contents h l) (contents h1 l)) as Hrec1.
  { intros r c. rewrite Hcell1. case_decide as E; [|by left].
    destruct E as (Hr & Hrr & ->). right. split; [|done].
    rewrite (cell_at_contents h l r y row) by (lia || done).
    by rewrite <- (cell_at_contents h l x y row) by (lia || done). }
  assert (cell_at (contents h1 l) x y = Some repl) as Hxy1.
  { rewrite Hcell1. rewrite decide_True; [done|]. split; [lia|done]. }
  assert (NoDup (deref_grid h l) →
          ∀ r c, cell_at (contents h1 l) r c
                 = if decide ((r, c) = (x, y)) then Some repl
                   else cell_at (contents h l) r c) as Hone.
  { intros Hnd r c. rewrite Hcell1.
    pose proof (distinct_rows_cell h x r row Hnd ltac:(lia) Hrow) as Hd.
    destruct (decide ((r, c) = (x, y))) as [E|E].
    - inversion E; subst. rewrite decide_True; [done|]. split; [lia|done].
    - rewrite decide_False; [done|]. intros (Hr & Hrr & ->).
      apply E. f_equal. apply Hd. done. }
  destruct (dfs_dirs fuel x y dirs4 IH h1)
    as (h' & Hfold & Hfr' & Hm' & Hrec' & Hdone & Hcl & Hreach).
  { done. }
  { assert (targets (contents h1 l) nr nc ⊂ targets (contents h l) nr nc)
      as Hlt.
    { split; [by apply recolors_targets|]. intros Hsub.
      specialize (Hsub (x, y)). rewrite !elem_of_targets in Hsub by done.
      simpl in Hsub. specialize (Hsub Hxy). congruence. }
    apply subset_size in Hlt. lia. }
  rewrite Hfold. exists h'. split; [done|].
  split.
  - by eapply frame_trans.
  - done.
  - by eapply recolors_trans.
  - eapply recolors_not_target; [done|]. congruence.
  - intros Hnd r c Hfresh.
    assert (NoDup (deref_grid h1 l)) as Hnd1 by by rewrite (frame_rows h h1).
    destruct (fresh_split _ _ _ r c Hrec1 Hfresh) as [[_ Hf]|Hf]; [|auto].
    rewrite (Hone Hnd) in Hf. case_decide as E.
    + inversion E; subst. intros d Hd. by apply Hdone.
    + destruct Hfresh. congruence.
  - intros Hnd r c Hfresh.
    assert (NoDup (deref_grid h1 l)) as Hnd1 by by rewrite (frame_rows h h1).
    destruct (fresh_split _ _ _ r c Hrec1 Hfresh) as [[_ Hf]|Hf].
    + rewrite (Hone Hnd) in Hf. case_decide as E.
      * inversion E; subst. apply reach_start. exact Hxy.
      * destruct Hfresh. congruence.
    + destruct (Hreach Hnd1 r c Hf) as (d & Hd & Hr).
      apply (reach_trans _ _ (x + d.1, y + d.2)).
      * apply (reach_step _ (x, y) (x, y) d);
          [apply reach_start; exact Hxy|done|].
        simpl. eapply recolors_target; [exact Hrec1|].
        apply (reach_source _ _ _ Hr).
      * eapply reach_mono; [|done]. intros r' c'. by apply recolors_target.
Qed.
End Walk.

Lemma dfs_miss fuel nr nc x y (h : store color) :
  rectangular (contents h l) nr nc → 0 < nr →
  cell_at (contents h l) x y ≠ Some tgt →
  dfs (S fuel) self x y h = Ok h.
Proof.
  intros Hm Hnr Hxy.
  rewrite dfs_S, (is_valid_spec h nr nc) by done.
  by rewrite bool_decide_eq_false_2.
Qed.

Lemma dfs_hit fuel nr nc x y (h : store color) :
  rectangular (contents h l) nr nc → 0 < nr →
  cell_at (contents h l) x y = Some tgt →
  dfs (S fuel) self x y h =
  (h1 ← matrix_set self h x y repl;
   foldl (λ acc '(dx, dy), h ← acc; dfs fuel self (x + dx) (y + dy) h)
         (Ok h1) dirs4).
Proof.
  intros Hm Hnr Hxy.
  rewrite dfs_S, (is_valid_spec h nr nc) by done.
  rewrite bool_decide_eq_true_2 by done. by rewrite bind_Ok.
Qed.
(** *** [fill] on a start coordinate inside the grid *)

Section Start.
Variables (nr nc sx sy : Z) (h : store color).
Hypothesis Hm : rectangular (contents h l) nr nc.
Hypothesis Hstart : start_node self = (sx, sy).
Hypothesis Hsx : 0 ≤ sx < nr.
Hypothesis Hsy : 0 ≤ sy < nc.

Lemma fill_unfold fuel :
  ∃ u, cell_at (contents h l) sx sy = Some u ∧
       fill fuel self h =
       if bool_decide (u = repl) then Ok (l, h)
       else h' ← dfs fuel self sx sy h; Ok (l, h').
Proof.
  destruct (contents_row h l nr nc sx Hm Hsx) as (row & Hrow & Hget & Hlen).
  destruct (lookup_lt_is_Some_2 (deref_row h row) (Z.to_nat sy)) as [u Hu];
    [lia|].
  exists u. split.
  { by rewrite (cell_at_contents h l sx sy row) by (lia || done). }
  unfold fill. rewrite Hstart. fold l. rewrite Hget, bind_Ok.
  rewrite (py_getitem_lookup _ sy u) by (lia || done). by rewrite bind_Ok.
Qed.

(** The guard: nothing is walked, whatever the fuel. *)
Lemma fill_guard fuel :
  cell_at (contents h l) sx sy = Some repl → fill fuel self h = Ok (l, h).
Proof.
  intros Hc. destruct (fill_unfold fuel) as (u & Hu & ->).
  rewrite bool_decide_eq_true_2; [done|congruence].
Qed.

(** A start cell of a third color: the walk returns at once. *)
Lemma fill_miss fuel :
  cell_at (contents h l) sx sy ≠ Some repl →
  cell_at (contents h l) sx sy ≠ Some tgt →
  fill (S fuel) self h = Ok (l, h).
Proof.
  intros Hc Ht. destruct (fill_unfold (S fuel)) as (u & Hu & ->).
  rewrite bool_decide_eq_false_2 by congruence.
  rewrite (dfs_miss fuel nr nc sx sy h) by (done || lia). done.
Qed.

(** A start cell of the target color, which is not the replacement
    color: the walk runs. *)
Lemma fill_walk fuel :
  tgt ≠ repl → cell_at (contents h l) sx sy = Some tgt →
  (size (targets (contents h l) nr nc) < fuel)%nat →
  ∃ h', fill fuel self h = Ok (l, h') ∧ dfs_post h nr nc sx sy h'.
Proof.
  intros Hcolors Hc Hfuel. destruct (fill_unfold fuel) as (u & Hu & ->).
  rewrite bool_decide_eq_false_2 by congruence.
  destruct (dfs_spec nr nc Hcolors ltac:(lia) fuel sx sy h Hm Hfuel)
    as (h' & -> & Hpost).
  exists h'. done.
Qed.

Lemma size_targets_le :
  (size (targets (contents h l) nr nc) ≤ Z.to_nat nr * Z.to_nat nc)%nat.
Proof.
  etrans; [|apply size_grid_cells]. apply subseteq_size.
  unfold targets. intros s Hs. by apply elem_of_filter in Hs as [_ ?].
Qed.

(** The cells of the region hold the replacement color, the others
    what they held. *)
Definition filled (m' : list (list color)) : Prop :=
  ∀ r c, (reach (contents h l) (sx, sy) (r, c) → cell_at m' r c = Some repl)
         ∧ (¬ reach (contents h l) (sx, sy) (r, c) →
            cell_at m' r c = cell_at (contents h l) r c).

Lemma post_filled (h' : store color) :
  tgt ≠ repl → NoDup (deref_grid h l) → dfs_post h nr nc sx sy h' →
  filled (contents h' l).
Proof.
  intros Hcolors Hnd [Hfr Hm' Hrec Hhere Hcl Hreach].
  specialize (Hcl Hnd). specialize (Hreach Hnd).
  assert (∀ s, reach (contents h l) (sx, sy) s →
               cell_at (contents h' l) s.1 s.2 = Some repl) as Hall.
  { induction 1 as [Hs|c d Hc IH Hd Hcd]; simpl in *.
    - destruct (Hrec sx sy) as [E|[_ E]]; [congruence|done].
    - destruct (Hrec (c.1 + d.1) (c.2 + d.2)) as [E|[_ E]]; [|done].
      exfalso. apply (Hcl c.1 c.2) with d; [|done|congruence].
      split; [|done]. by apply reach_target in Hc. }
  intros r c. split; [apply (Hall (r, c))|].
  intros Hno. destruct (Hrec r c) as [E|Hf]; [done|].
  destruct Hno. by apply Hreach.
Qed.

Lemma unfilled_filled :
  (tgt = repl ∨ cell_at (contents h l) sx sy ≠ Some tgt) →
  filled (contents h l).
Proof.
  intros Hcase r c. split; [|done]. intros Hr.
  destruct Hcase as [E|Hs].
  - apply reach_target in Hr. simpl in Hr. by rewrite <- E.
  - by apply reach_source in Hr.
Qed.

(** The three cases together. *)
Lemma fill_spec fuel :
  (Z.to_nat nr * Z.to_nat nc < fuel)%nat →
  ∃ h', fill fuel self h = Ok (l, h')
        ∧ frame h h'
        ∧ rectangular (contents h' l) nr nc
        ∧ recolors (contents h l) (contents h' l)
        ∧ (NoDup (deref_grid h l) → filled (contents h' l))
        ∧ (h' = h ∨ cell_at (contents h' l) sx sy = Some repl).
Proof.
  intros Hfuel.
  destruct (decide (cell_at (contents h l) sx sy = Some repl)) as [Hr|Hr].
  { exists h. split; [by apply fill_guard|]. split; [apply frame_refl|].
    split; [done|]. split; [apply recolors_refl|]. split; [|by left].
    intros _. apply unfilled_filled.
    destruct (decide (tgt = repl)); [by left|right; congruence]. }
  destruct (decide (cell_at (contents h l) sx sy = Some tgt)) as [Ht|Ht].
  - assert (tgt ≠ repl) as Hcolors by congruence.
    destruct (fill_walk fuel Hcolors Ht) as (h' & Hfill & Hpost).
    { pose proof size_targets_le. lia. }
    exists h'. split; [done|]. split; [apply Hpost|]. split; [apply Hpost|].
    split; [apply Hpost|]. split; [intros Hnd; by apply post_filled|].
    right. destruct (post_recolors _ _ _ _ _ _ Hpost sx sy) as [E|[_ E]]; [|done].
    destruct (post_here _ _ _ _ _ _ Hpost). congruence.
  - exists h. destruct fuel as [|fuel]; [lia|].
    split; [by apply fill_miss|]. split; [apply frame_refl|].
    split; [done|]. split; [apply recolors_refl|]. split; [|by left].
    intros _. apply unfilled_filled. by right.
Qed.
End Start.
End Facts.

(** *** The walk without the guard *)

Section Diverge.
Context {color : Type} `{EqDecision color}.
Variable c : color.

(** One row of two cells of one color, to be recolored with that same
    color. *)
Definition same_color : FloodFillProblem color :=
  mkFloodFillProblem 1%positive (0, 0) c c.

Definition two_cells : store color :=
  mkStore {[1%positive := [2%positive]]} {[2%positive := [c; c]]}.

Lemma two_cells_rectangular :
  rectangular (contents two_cells (matrix same_color)) 1 2.
Proof. split; [done|]. by repeat constructor. Qed.

Lemma two_cells_write (y : Z) :
  y = 0 ∨ y = 1 →
  matrix_set same_color two_cells 0 y (replacement_color same_color)
  = Ok two_cells.
Proof. by intros [-> | ->]. Qed.

(** The two cells keep calling each other. *)
Lemma dfs_same_color_diverges fuel :
  dfs fuel same_color 0 0 two_cells = OutOfFuel
  ∧ dfs fuel same_color 0 1 two_cells = OutOfFuel.
Proof.
  pose proof two_cells_rectangular as Hm.
  assert (∀ fuel x y, cell_at [[c; c]] x y = None →
            dfs (S fuel) same_color x y two_cells = Ok two_cells) as Hmiss.
  { intros f x y Hxy. apply (dfs_miss same_color f 1 2 x y two_cells);
      [done|lia|]. change (contents two_cells (matrix same_color)) with [[c; c]].
    by rewrite Hxy. }
  induction fuel as [|fuel [IH0 IH1]]; [done|]. split.
  - rewrite (dfs_hit same_color fuel 1 2 0 0 two_cells) by (done || lia).
    rewrite two_cells_write by (by left). rewrite bind_Ok.
    unfold dirs4. cbn [foldl]. rewrite bind_Ok.
    destruct fuel as [|fuel]; [done|].
    do 3 (rewrite Hmiss by done; rewrite bind_Ok; cbv beta).
    change (0 + 0) with 0. change (0 + 1) with 1. by rewrite IH1.
  - rewrite (dfs_hit same_color fuel 1 2 0 1 two_cells) by (done || lia).
    rewrite two_cells_write by (by right). rewrite bind_Ok.
    unfold dirs4. cbn [foldl]. rewrite bind_Ok.
    destruct fuel as [|fuel]; [done|].
    do 2 (rewrite Hmiss by done; rewrite bind_Ok; cbv beta).
    change (0 + 0) with 0. change (1 + -1) with 0. by rewrite IH0.
Qed.
End Diverge.

(** *** Claims *)

Section Claims.
Context {color : Type} `{EqDecision color}.
Variable self : FloodFillProblem color.
Variables (nr nc sx sy : Z) (h : store color) (m : list (list color)).

(** C6, amended.  On a rectangular grid whose rows are distinct list
    objects and a start coordinate inside it, [fill] returns (given fuel
    for every cell) the address of [self.matrix]; it changes no list of
    rows and no row object that is not a row of the matrix; and in the
    matrix every cell linked to the start by a 4-connected path through
    cells that held the target color holds the replacement color, and
    every other cell holds what it held. *)
Theorem fill_region fuel :
  contents h (matrix self) = m → NoDup (deref_grid h (matrix self)) →
  rectangular m nr nc →
  start_node self = (sx, sy) → 0 ≤ sx < nr → 0 ≤ sy < nc →
  (Z.to_nat nr * Z.to_nat nc < fuel)%nat →
  ∃ h' m', fill fuel self h = Ok (matrix self, h')
        ∧ grids h' = grids h
        ∧ (∀ a, a ∉ deref_grid h (matrix self) → lines h' !! a = lines h !! a)
        ∧ contents h' (matrix self) = m'
        ∧ rectangular m' nr nc
        ∧ ∀ r c,
            (reach self m (sx, sy) (r, c) →
             cell_at m' r c = Some (replacement_color self))
            ∧ (¬ reach self m (sx, sy) (r, c) →
               cell_at m' r c = cell_at m r c).
Proof.
  intros <- Hnd Hm Hstart Hsx Hsy Hfuel.
  destruct (fill_spec self nr nc sx sy h Hm Hstart Hsx Hsy fuel Hfuel)
    as (h' & Hfill & [Hgrids Hlines] & Hm' & _ & Hfilled & _).
  exists h', (contents h' (matrix self)).
  split; [done|]. split; [done|]. split; [done|]. split; [done|].
  split; [done|]. by apply Hfilled.
Qed.

(** C8.  When the cell at the start coordinate holds the replacement
    color, [fill] returns the store as it is, with no fuel at all, that
    is without a single call of the walk; and a second run of [fill]
    after a first one returns the store that the first one left. *)
Theorem fill_guard_idempotent :
  contents h (matrix self) = m → rectangular m nr nc →
  start_node self = (sx, sy) → 0 ≤ sx < nr → 0 ≤ sy < nc →
  (cell_at m sx sy = Some (replacement_color self) →
   ∀ fuel, fill fuel self h = Ok (matrix self, h))
  ∧ (∀ fuel1 fuel2,
       (Z.to_nat nr * Z.to_nat nc < fuel1)%nat →
       (Z.to_nat nr * Z.to_nat nc < fuel2)%nat →
       ∃ h1, fill fuel1 self h = Ok (matrix self, h1)
             ∧ fill fuel2 self h1 = Ok (matrix self, h1)).
Proof.
  intros <- Hm Hstart Hsx Hsy. split.
  { intros Hc fuel. by eapply fill_guard. }
  intros fuel1 fuel2 Hfuel1 Hfuel2.
  destruct (fill_spec self nr nc sx sy h Hm Hstart Hsx Hsy fuel1 Hfuel1)
    as (h' & Hfill & _ & Hm' & _ & _ & [->|Hc]).
  - set (m := contents h (matrix self)) in *.
    destruct (decide (cell_at m sx sy = Some (replacement_color self))) as [Hr|Hr].
    { exists h. split; [done|]. by eapply fill_guard. }
    destruct (decide (cell_at m sx sy = Some (target_color self))) as [Ht|Ht].
    + assert (target_color self ≠ replacement_color self) as Hcolors by congruence.
      destruct (fill_walk self nr nc sx sy h Hm Hstart Hsx Hsy fuel1 Hcolors Ht)
        as (h' & Hfill' & Hpost).
      { pose proof (size_targets_le self nr nc h). lia. }
      exfalso. rewrite Hfill in Hfill'. inversion Hfill'; subst h'.
      by destruct (post_here _ _ _ _ _ _ _ Hpost).
    + exists h. split; [done|].
      destruct fuel2 as [|fuel2]; [lia|]. by eapply fill_miss.
  - exists h'. split; [done|]. by eapply fill_guard.
Qed.

(** C10.  On a rectangular grid and a start coordinate inside it [fill]
    returns for every amount of fuel above the number of cells, whether
    or not the two colors are equal.  When the two colors are equal and
    the start cell holds them, recoloring the start cell leaves it valid
    for [is_valid], and the guard returns before the walk, with no fuel at
    all.  That case is the only one in which the walk from the start
    coordinate can fail to return; and it does fail to return on a row of
    two cells of one color that is to be recolored with that same color,
    where [fill] returns. *)
Theorem fill_total_by_guard :
  contents h (matrix self) = m → rectangular m nr nc →
  start_node self = (sx, sy) → 0 ≤ sx < nr → 0 ≤ sy < nc →
  (∀ fuel, (Z.to_nat nr * Z.to_nat nc < fuel)%nat →
           ∃ h', fill fuel self h = Ok (matrix self, h'))
  ∧ (target_color self = replacement_color self →
     cell_at m sx sy = Some (target_color self) →
     (∃ h1, matrix_set self h sx sy (replacement_color self) = Ok h1
            ∧ is_valid self h1 sx sy = Ok true)
     ∧ ∀ fuel, fill fuel self h = Ok (matrix self, h))
  ∧ ((∀ fuel, dfs fuel self sx sy h = OutOfFuel) →
     target_color self = replacement_color self
     ∧ cell_at m sx sy = Some (target_color self))
  ∧ (∀ fuel,
       dfs fuel (same_color (target_color self)) 0 0
           (two_cells (target_color self)) = OutOfFuel
       ∧ fill fuel (same_color (target_color self))
              (two_cells (target_color self))
         = Ok (1%positive, two_cells (target_color self))).
Proof.
  intros <- Hm Hstart Hsx Hsy. split; [|split; [|split]].
  - intros fuel Hfuel.
    destruct (fill_spec self nr nc sx sy h Hm Hstart Hsx Hsy fuel Hfuel)
      as (h' & Hfill & _). eauto.
  - intros Hsame Ht. split.
    + destruct (matrix_set_spec self h nr nc sx sy (replacement_color self)
                  Hm Hsx Hsy)
        as (row & h1 & Hrow & Hset & _ & Hm1 & Hcell).
      exists h1. split; [done|].
      rewrite (is_valid_spec self h1 nr nc) by (done || lia).
      rewrite bool_decide_eq_true_2; [done|].
      rewrite Hcell, decide_True; [congruence|]. split; [lia|done].
    + intros fuel. eapply fill_guard; eauto. congruence.
  - intros Hdiv.
    assert (cell_at (contents h (matrix self)) sx sy
            = Some (target_color self)) as Ht.
    { destruct (decide (cell_at (contents h (matrix self)) sx sy
                        = Some (target_color self))); [done|].
      specialize (Hdiv 1%nat).
      rewrite (dfs_miss self 0 nr nc sx sy h) in Hdiv by (done || lia).
      discriminate. }
    split; [|done].
    destruct (decide (target_color self = replacement_color self)) as [|Hne];
      [done|].
    destruct (dfs_spec self nr nc Hne ltac:(lia)
                (S (size (targets self (contents h (matrix self)) nr nc)))
                sx sy h Hm)
      as (h' & Hdfs & _); [lia|].
    rewrite Hdiv in Hdfs. discriminate.
  - intros fuel. split; [apply dfs_same_color_diverges|].
    apply (fill_guard (same_color (target_color self)) 1 2 0 0
             (two_cells (target_color self)));
      [apply two_cells_rectangular|done|lia|lia|done].
Qed.
End Claims.

(** *** The scenario of the specification: a ring of X around a C *)

Definition ring : list (list string) :=
  [["X"; "X"; "X"]; ["X"; "C"; "X"]; ["X"; "X"; "X"]]%string.

(** The matrix at address 7, its three rows at the addresses 1, 2, 3. *)
Definition ring_store : store string :=
  mkStore {[7%positive := [1; 2; 3]%positive]}
          {[1%positive := ["X"; "X"; "X"]%string;
            2%positive := ["X"; "C"; "X"]%string;
            3%positive := ["X"; "X"; "X"]%string]}.

Definition ring_fill : FloodFillProblem string :=
  mkFloodFillProblem 7%positive (0, 0) "X"%string "C"%string.

Lemma ring_rectangular : rectangular ring 3 3.
Proof. split; [done|]. by repeat constructor. Qed.

Lemma ring_rows_distinct : NoDup (deref_grid ring_store (matrix ring_fill)).
Proof.
  change (NoDup [1; 2; 3]%positive).
  repeat (apply NoDup_cons; split; [set_solver|]). apply NoDup_nil_2.
Qed.

Example ring_filled :
  fill 10 ring_fill ring_store
  = Ok (7%positive,
        mkStore {[7%positive := [1; 2; 3]%positive]}
                {[1%positive := ["C"; "C"; "C"]%string;
                  2%positive := ["C"; "C"; "C"]%string;
                  3%positive := ["C"; "C"; "C"]%string]}).
Proof. by vm_compute. Qed.

Lemma fill_region_witness :
  contents ring_store (matrix ring_fill) = ring
  ∧ NoDup (deref_grid ring_store (matrix ring_fill))
  ∧ rectangular ring 3 3
  ∧ start_node ring_fill = (0, 0) ∧ 0 ≤ 0 < 3 ∧ 0 ≤ 0 < 3
  ∧ (Z.to_nat 3 * Z.to_nat 3 < 10)%nat
  ∧ ∃ h' m', fill 10 ring_fill ring_store = Ok (matrix ring_fill, h')
          ∧ grids h' = grids ring_store
          ∧ (∀ a, a ∉ deref_grid ring_store (matrix ring_fill) →
                  lines h' !! a = lines ring_store !! a)
          ∧ contents h' (matrix ring_fill) = m'
          ∧ rectangular m' 3 3
          ∧ ∀ r c,
              (reach ring_fill ring (0, 0) (r, c) →
               cell_at m' r c = Some (replacement_color ring_fill))
              ∧ (¬ reach ring_fill ring (0, 0) (r, c) →
                 cell_at m' r c = cell_at ring r c).
Proof.
  split; [reflexivity|]. split; [exact ring_rows_distinct|].
  split; [exact ring_rectangular|].
  split; [reflexivity|]. split; [lia|]. split; [lia|]. split; [simpl; lia|].
  apply (fill_region ring_fill 3 3 0 0 ring_store ring 10).
  - reflexivity.
  - exact ring_rows_distinct.
  - exact ring_rectangular.
  - reflexivity.
  - lia.
  - lia.
  - simpl. lia.
Defined.

Lemma fill_guard_idempotent_witness :
  contents ring_store (matrix ring_fill) = ring ∧ rectangular ring 3 3
  ∧ start_node ring_fill = (0, 0) ∧ 0 ≤ 0 < 3 ∧ 0 ≤ 0 < 3
  ∧ (cell_at ring 0 0 = Some (replacement_color ring_fill) →
     ∀ fuel, fill fuel ring_fill ring_store = Ok (matrix ring_fill, ring_store))
  ∧ (∀ fuel1 fuel2,
       (Z.to_nat 3 * Z.to_nat 3 < fuel1)%nat →
       (Z.to_nat 3 * Z.to_nat 3 < fuel2)%nat →
       ∃ h1, fill fuel1 ring_fill ring_store = Ok (matrix ring_fill, h1)
             ∧ fill fuel2 ring_fill h1 = Ok (matrix ring_fill, h1)).
Proof.
  split; [reflexivity|]. split; [exact ring_rectangular|].
  split; [reflexivity|]. split; [lia|]. split; [lia|].
  apply (fill_guard_idempotent ring_fill 3 3 0 0 ring_store ring).
  - reflexivity.
  - exact ring_rectangular.
  - reflexivity.
  - lia.
  - lia.
Defined.

Lemma fill_total_by_guard_witness :
  contents ring_store (matrix ring_fill) = ring ∧ rectangular ring 3 3
  ∧ start_node ring_fill = (0, 0) ∧ 0 ≤ 0 < 3 ∧ 0 ≤ 0 < 3
  ∧ (∀ fuel, (Z.to_nat 3 * Z.to_nat 3 < fuel)%nat →
             ∃ h', fill fuel ring_fill ring_store = Ok (matrix ring_fill, h'))
  ∧ (target_color ring_fill = replacement_color ring_fill →
     cell_at ring 0 0 = Some (target_color ring_fill) →
     (∃ h1, matrix_set ring_fill ring_store 0 0 (replacement_color ring_fill)
            = Ok h1
            ∧ is_valid ring_fill h1 0 0 = Ok true)
     ∧ ∀ fuel, fill fuel ring_fill ring_store = Ok (matrix ring_fill, ring_store))
  ∧ ((∀ fuel, dfs fuel ring_fill 0 0 ring_store = OutOfFuel) →
     target_color ring_fill = replacement_color ring_fill
     ∧ cell_at ring 0 0 = Some (target_color ring_fill))
  ∧ (∀ fuel,
       dfs fuel (same_color (target_color ring_fill)) 0 0
           (two_cells (target_color ring_fill)) = OutOfFuel
       ∧ fill fuel (same_color (target_color ring_fill))
              (two_cells (target_color ring_fill))
         = Ok (1%positive, two_cells (target_color ring_fill))).
Proof.
  split; [reflexivity|]. split; [exact ring_rectangular|].
  split; [reflexivity|]. split; [lia|]. split; [lia|].
  apply (fill_total_by_guard ring_fill 3 3 0 0 ring_store ring).
  - reflexivity.
  - exact ring_rectangular.
  - reflexivity.
  - lia.
  - lia.
Defined.

(** *** A matrix that holds one row object twice *)

(** [row = ["X", "X"]; matrix = [row, ["Y", "Y"], row]]: the first and the
    last item of the matrix (address 7) are the row object at address 1. *)
Definition stripes : list (list string) :=
  [["X"; "X"]; ["Y"; "Y"]; ["X"; "X"]]%string.

Definition stripes_store : store string :=
  mkStore {[7%positive := [1; 2; 1]%positive]}
          {[1%positive := ["X"; "X"]%string;
            2%positive := ["Y"; "Y"]%string]}.

Definition stripes_fill : FloodFillProblem string :=
  mkFloodFillProblem 7%positive (0, 0) "X"%string "C"%string.

(** The region of the start stays in the first row: the row of Y lies
    between it and the last row. *)
Lemma stripes_reach (s : Z * Z) :
  reach stripes_fill stripes (0, 0) s → s.1 = 0.
Proof.
  induction 1 as [|c d Hc IH Hd Hcell]; [done|].
  simpl. rewrite IH in Hcell |- *.
  unfold dirs4 in Hd.
  repeat (apply elem_of_cons in Hd as [->|Hd]);
    try (by apply elem_of_nil in Hd); simpl in *; try done.
  unfold cell_at in Hcell. simpl in Hcell.
  destruct (0 <=? c.2 + 0); [|done]. simpl in Hcell.
  by destruct (Z.to_nat (c.2 + 0)) as [|[|[|]]].
Qed.

(** C6 as stated, on the matrix that holds one row twice.  The grid is
    rectangular and the start is inside it; the cell (2,0) holds the
    target color and is not linked to the start (0,0) through cells of
    the target color; [fill] recolors it all the same, because the write
    to row 0 is a write to row 2. *)
Lemma fill_shared_rows_recolored :
  contents stripes_store (matrix stripes_fill) = stripes
  ∧ rectangular stripes 3 2
  ∧ start_node stripes_fill = (0, 0)
  ∧ ¬ reach stripes_fill stripes (0, 0) (2, 0)
  ∧ cell_at stripes 2 0 = Some "X"%string
  ∧ ∃ h', fill 7 stripes_fill stripes_store = Ok (matrix stripes_fill, h')
          ∧ contents h' (matrix stripes_fill)
            = [["C"; "C"]; ["Y"; "Y"]; ["C"; "C"]]%string
          ∧ cell_at (contents h' (matrix stripes_fill)) 2 0 = Some "C"%string.
Proof.
  split; [reflexivity|]. split; [split; [done|by repeat constructor]|].
  split; [reflexivity|]. split; [intros Hr; by apply stripes_reach in Hr|].
  split; [reflexivity|].
  eexists. split; [by vm_compute|]. split; by vm_compute.
Qed.

(** *** A start coordinate outside the grid *)

Definition one_cell : store string :=
  mkStore {[1%positive := [2%positive]]} {[2%positive := ["X"]%string]}.

Definition start_below : FloodFillProblem string :=
  mkFloodFillProblem 1%positive (1, 0) "X"%string "C"%string.

Definition two_rows (c : string) : store string :=
  mkStore {[1%positive := [2; 3]%positive]}
          {[2%positive := ["X"]%string; 3%positive := [c]]}.

Definition start_above : FloodFillProblem string :=
  mkFloodFillProblem 1%positive (-1, 0) "X"%string "C"%string.

(** C3 at a start coordinate outside the grid.  [fill] subscripts the
    matrix with the start coordinate before any test of the bounds: with
    row 1 of a grid of one row it raises [IndexError]; with row -1 of a
    grid of two rows it reads the last row, and returns on the guard,
    with no call of the walk, exactly when that cell holds the
    replacement color. *)
Theorem fill_reads_start_unchecked :
  (∀ fuel, fill fuel start_below one_cell = IndexError)
  ∧ fill 0 start_above (two_rows "C") = Ok (1%positive, two_rows "C")
  ∧ fill 0 start_above (two_rows "X") = OutOfFuel
  ∧ fill 1 start_above (two_rows "X") = Ok (1%positive, two_rows "X").
Proof. repeat split; by vm_compute. Qed.

End FloodFillFacts.

(* --------------------------------------------------------------------- *)
(** ** Word search (word_matrix.py)                                      *)
(* --------------------------------------------------------------------- *)

Module WordMatrixFacts.
Import WordMatrix.

(** Two cells that touch by a side or a corner. *)
Definition adjacent8 (s t : Z * Z) : Prop :=
  ∃ d, d ∈ directions ∧ t = (s.1 + d.1, s.2 + d.2).

(** Every cell of the path is adjacent to the one before it. *)
Definition chain (path : list (Z * Z)) : Prop :=
  ∀ i s t, path !! i = Some s → path !! S i = Some t → adjacent8 s t.

(** The number of nodes of a tree of depth [k] with eight children at
    every node: a bound on the turns that a state costs when its path may
    still grow by [k] cells. *)
Fixpoint tree_size (k : nat) : nat :=
  match k with
  | O => 1
  | S k' => 1 + 8 * tree_size k'
  end.

Lemma chain_snoc path s t :
  chain path → last path = Some s → adjacent8 s t → chain (path ++ [t]).
Proof.
  intros Hc Hlast Hadj i a b Ha Hb.
  destruct (decide (S i < length path)%nat) as [Hlt|Hge].
  - rewrite lookup_app_l in Ha, Hb by lia. by apply (Hc i).
  - assert (S i = length path) as Hi.
    { apply lookup_lt_Some in Hb. rewrite length_app in Hb. simpl in Hb. lia. }
    rewrite lookup_app_l in Ha by lia.
    rewrite lookup_app_r, Hi, Nat.sub_diag in Hb by lia.
    simpl in Hb. inversion Hb; subst b.
    rewrite last_lookup in Hlast.
    replace (pred (length path)) with i in Hlast by lia.
    congruence.
Qed.

Lemma chain_single s : chain [s].
Proof. intros i a b Ha Hb. by destruct i. Qed.

Lemma chain_middle p1 s t p2 : chain (p1 ++ s :: t :: p2) → adjacent8 s t.
Proof.
  intros Hc. apply (Hc (length p1)).
  - by rewrite lookup_app_r, Nat.sub_diag by lia.
  - rewrite lookup_app_r by lia.
    by replace (S (length p1) - length p1)%nat with 1%nat by lia.
Qed.

Section Facts.
Context {char : Type} `{Countable char}.

(** The letters of the cells of the path, in order, are the word. *)
Definition spells (board : list (list char)) (path : list (Z * Z))
    (w : list char) : Prop :=
  Forall2 (λ s ch, cell_at board s.1 s.2 = Some ch) path w.

(** The word can be read along a path of the board that does not
    cross itself. *)
Definition traces (board : list (list char)) (path : list (Z * Z))
    (w : list char) : Prop :=
  path ≠ [] ∧ NoDup path ∧ chain path ∧ spells board path w.

Lemma spells_functional board path (w1 w2 : list char) :
  spells board path w1 → spells board path w2 → w1 = w2.
Proof.
  intros H1. revert w2. induction H1 as [|s ch path w Hs _ IH]; intros w2 H2.
  - by inversion H2.
  - inversion H2 as [|s' ch' path' w' Hs' Hrest]; subst.
    f_equal; [congruence|]. by apply IH.
Qed.

(** *** The prefix set *)

Lemma prefix_loop_spec (w : list char) (n : nat) (acc : gset (list char)) :
  ∀ u, u ∈ foldl (λ prefixes i, {[take (S i) w]} ∪ prefixes) acc (seq 0 n)
       ↔ u ∈ acc ∨ ∃ i, (i < n)%nat ∧ u = take (S i) w.
Proof.
  induction n as [|n IH]; intros u.
  { simpl. split; [by left|]. intros [?|(i & ? & _)]; [done|lia]. }
  rewrite seq_S, foldl_snoc. simpl. rewrite elem_of_union, elem_of_singleton, IH.
  split.
  - intros [->|[?|(i & ? & ->)]]; [right; exists n; split; [lia|done]|by left|].
    right. exists i. split; [lia|done].
  - intros [?|(i & Hi & ->)]; [right; by left|].
    destruct (decide (i = n)) as [->|]; [by left|].
    right. right. exists i. split; [lia|done].
Qed.

Lemma build_prefix_set_spec (words : list (list char)) (u : list char) :
  u ∈ _build_prefix_set words
  ↔ ∃ w i, w ∈ words ∧ (i < length w)%nat ∧ u = take (S i) w.
Proof.
  unfold _build_prefix_set.
  induction words as [|w words IH] using rev_ind.
  { simpl. split; [set_solver|]. intros (w & i & Hw & _). by apply elem_of_nil in Hw. }
  rewrite foldl_snoc, prefix_loop_spec, IH. split.
  - intros [(w' & i & Hw' & Hi & ->)|(i & Hi & ->)].
    + exists w', i. split; [apply elem_of_app; by left|done].
    + exists w, i. split; [apply elem_of_app; right; by left|done].
  - intros (w' & i & Hw' & Hi & ->). apply elem_of_app in Hw' as [Hw'|Hw'].
    + left. by exists w', i.
    + apply list_elem_of_singleton in Hw' as ->. right. by exists i.
Qed.

(** A proper, non-empty beginning of a word of the dictionary is in the
    prefix set. *)
Lemma beginning_in_prefixes (words : list (list char)) (w1 w2 : list char) :
  w1 ++ w2 ∈ words → w1 ≠ [] → w1 ∈ _build_prefix_set words.
Proof.
  intros Hw Hne. apply build_prefix_set_spec.
  exists (w1 ++ w2), (pred (length w1)).
  assert (0 < length w1)%nat by (destruct w1; [done|simpl; lia]).
  split; [done|]. split; [rewrite length_app; lia|].
  replace (S (pred (length w1))) with (length w1) by lia.
  by rewrite take_app_length.
Qed.

(** *** States of the search *)

Variable self : MatrixWordSearchProblem char.

(** A problem object as [init] builds it from a rectangular board and a
    list of words. *)
Definition wf (words : list (list char)) : Prop :=
  rectangular (board self) (rows self) (cols self)
  ∧ dictionary self = list_to_set words
  ∧ prefixes self = _build_prefix_set words.

(** The states that the search pushes: the path ends on the
    coordinate of the state, lies in the grid, is linked by
    neighbour steps and does not cross itself. *)
Definition good (st : Z * Z * list (Z * Z)) : Prop :=
  last st.2 = Some st.1
  ∧ NoDup st.2 ∧ chain st.2
  ∧ Forall (λ s, s ∈ grid_cells (rows self) (cols self)) st.2.

Lemma is_valid_move_spec nx ny (path : list (Z * Z)) :
  is_valid_move nx ny (rows self) (cols self) path = true
  ↔ (nx, ny) ∈ grid_cells (rows self) (cols self) ∧ (nx, ny) ∉ path.
Proof.
  unfold is_valid_move. rewrite !andb_true_iff, bool_decide_eq_true.
  rewrite elem_of_grid_cells, !Z.leb_le, !Z.ltb_lt. simpl. tauto.
Qed.

Lemma word_actions_spec x y (path : list (Z * Z)) (n : Z * Z) :
  n ∈ actions self (x, y, path)
  ↔ adjacent8 (x, y) n ∧ n ∈ grid_cells (rows self) (cols self) ∧ n ∉ path.
Proof.
  unfold actions. rewrite list_elem_of_filter, list_elem_of_fmap.
  destruct n as [nx ny]. rewrite is_valid_move_spec. unfold adjacent8. simpl.
  split.
  - intros [? ([dx dy] & E & Hd)]. split; [|done]. by exists (dx, dy).
  - intros [([dx dy] & Hd & E) ?]. split; [done|]. by exists (dx, dy).
Qed.

Lemma length_actions (st : Z * Z * list (Z * Z)) :
  (length (actions self st) ≤ 8)%nat.
Proof.
  destruct st as [[x y] path]. unfold actions.
  etrans; [apply length_filter|]. by rewrite length_fmap.
Qed.

Lemma good_child x y (path : list (Z * Z)) (n : Z * Z) :
  good (x, y, path) → n ∈ actions self (x, y, path) →
  good (result (x, y, path) n).
Proof.
  intros (Hlast & Hnd & Hch & Hin) Hn.
  apply word_actions_spec in Hn as (Hadj & Hgrid & Hnew).
  destruct n as [nx ny]. unfold good, result. simpl in *.
  split; [by rewrite last_snoc|]. split; [|split].
  - apply NoDup_app. split; [done|]. split; [|apply NoDup_singleton].
    intros s Hs ->%list_elem_of_singleton. done.
  - by eapply chain_snoc.
  - apply Forall_app. split; [done|]. by apply Forall_singleton.
Qed.

Lemma good_length (st : Z * Z * list (Z * Z)) :
  good st → (length st.2 ≤ Z.to_nat (rows self) * Z.to_nat (cols self))%nat.
Proof.
  intros (_ & Hnd & _ & Hin).
  etrans; [|apply size_grid_cells].
  rewrite <- (size_list_to_set (C := gset (Z * Z)) st.2) by done.
  apply subseteq_size. intros s Hs. apply elem_of_list_to_set in Hs.
  rewrite Forall_forall in Hin. auto.
Qed.

Lemma join_path_spec (path : list (Z * Z)) :
  rectangular (board self) (rows self) (cols self) →
  Forall (λ s, s ∈ grid_cells (rows self) (cols self)) path →
  ∃ w, join_path self path = Ok w ∧ spells (board self) path w.
Proof.
  intros Hm. induction 1 as [|[i j] path Hs _ (w & Hw & Hsp)].
  { exists []. split; [done|constructor]. }
  apply elem_of_grid_cells in Hs as [Hi Hj]. simpl in Hi, Hj.
  destruct (rectangular_cell _ _ _ i j Hm Hi Hj) as (row & ch & Hrow & Hch & Hcell).
  exists (ch :: w). split.
  - simpl. rewrite (py_getitem_lookup (board self) i row) by (lia || done).
    rewrite bind_Ok, (py_getitem_lookup row j ch) by (lia || done).
    by rewrite bind_Ok, Hw.
  - by constructor.
Qed.

Lemma spells_in_grid (path : list (Z * Z)) (w : list char) :
  rectangular (board self) (rows self) (cols self) →
  spells (board self) path w →
  Forall (λ s, s ∈ grid_cells (rows self) (cols self)) path.
Proof.
  intros Hm. induction 1 as [|s ch path w Hs _ IH]; constructor; [|done].
  apply elem_of_grid_cells. by eapply cell_at_Some.
Qed.

(** *** One turn of the loop *)

Definition budget : nat := Z.to_nat (rows self) * Z.to_nat (cols self).

Definition weight (st : Z * Z * list (Z * Z)) : nat :=
  tree_size (budget - length st.2).

Lemma weight_children (st : Z * Z * list (Z * Z)) :
  good st →
  (sum_list_with weight (result st <$> actions self st) < weight st)%nat.
Proof.
  intros Hgood. destruct st as [[x y] path].
  destruct (actions self (x, y, path)) as [|n ns] eqn:Hacts.
  { simpl. unfold weight. destruct (budget - _)%nat; simpl; lia. }
  assert (S (length path) ≤ budget)%nat as Hroom.
  { assert (good (result (x, y, path) n)) as Hchild.
    { apply good_child; [done|]. rewrite Hacts. by left. }
    apply good_length in Hchild. destruct n as [nx ny]. simpl in Hchild.
    rewrite length_app in Hchild. simpl in Hchild. unfold budget. lia. }
  rewrite <- Hacts.
  assert (∀ ms : list (Z * Z),
            sum_list_with weight (result (x, y, path) <$> ms)
            = (length ms * tree_size (budget - S (length path)))%nat) as Hsum.
  { induction ms as [|[mx my] ms IH]; [done|].
    rewrite fmap_cons. simpl. rewrite IH. unfold weight. simpl.
    rewrite length_app. simpl. by rewrite Nat.add_1_r. }
  rewrite Hsum. unfold weight. cbn [snd].
  pose proof (length_actions (x, y, path)) as Hlen.
  replace (budget - length path)%nat with (S (budget - S (length path))) by lia.
  cbn [tree_size].
  generalize dependent (length (actions self (x, y, path))).
  generalize (tree_size (budget - S (length path))). intros t k Hk. nia.
Qed.

Lemma stack_turn_snoc (rest : list (Z * Z * list (Z * Z)))
    (st : Z * Z * list (Z * Z)) (found : gset (list char)) (w : list char) :
  join_path self st.2 = Ok w →
  stack_turn self (rest ++ [st]) found =
  Ok (Some (if decide (w ∈ prefixes self)
            then rest ++ (result st <$> actions self st) else rest,
            if decide (w ∈ dictionary self) then {[w]} ∪ found else found)).
Proof.
  intros Hw. unfold stack_turn. rewrite py_pop_snoc.
  destruct st as [[x y] path]. simpl in Hw. by rewrite Hw.
Qed.

Lemma while_stack_S (fuel : nat) (stack : list (Z * Z * list (Z * Z)))
    (found : gset (list char)) :
  while_stack (S fuel) self stack found =
  (t ← stack_turn self stack found;
   match t with
   | None => Ok found
   | Some (stack, found) => while_stack fuel self stack found
   end).
Proof. reflexivity. Qed.

Lemma tree_size_pos k : (0 < tree_size k)%nat.
Proof. destruct k; simpl; lia. Qed.

Lemma tree_size_mono k k' : (k ≤ k')%nat → (tree_size k ≤ tree_size k')%nat.
Proof.
  revert k'. induction k as [|k IH]; intros k' Hk.
  - pose proof (tree_size_pos k'). simpl. lia.
  - destruct k' as [|k']; [lia|]. simpl. specialize (IH k'). lia.
Qed.

Lemma good_traces (st : Z * Z * list (Z * Z)) (w : list char) :
  good st → spells (board self) st.2 w → traces (board self) st.2 w.
Proof.
  intros (Hlast & Hnd & Hch & _) Hsp. split; [|done].
  intros E. by rewrite E in Hlast.
Qed.

(** *** The loop *)

(** With fuel for the trees below the states of the stack, the loop
    ends; it adds only words of the dictionary that a path traces, and
    it adds every such word whose path begins with the path of a state
    of the stack. *)
Lemma while_stack_spec (words : list (list char)) (fuel : nat) :
  wf words →
  ∀ (stack : list (Z * Z * list (Z * Z))) (found : gset (list char)),
    Forall good stack → (sum_list_with weight stack < fuel)%nat →
    ∃ found', while_stack fuel self stack found = Ok found'
      ∧ found ⊆ found'
      ∧ (∀ w, w ∈ found' →
              w ∈ found ∨ (w ∈ words ∧ ∃ path, traces (board self) path w))
      ∧ (∀ st path w, st ∈ stack → st.2 `prefix_of` path →
                      traces (board self) path w → w ∈ words → w ∈ found').
Proof.
  intros (Hm & Hdict & Hpre).
  induction fuel as [|fuel IH]; intros stack found Hgood Hfuel; [lia|].
  destruct stack as [|st rest _] using rev_ind.
  { exists found. split; [done|]. split; [done|]. split; [by left|].
    intros st path w Hst. by apply elem_of_nil in Hst. }
  apply Forall_app in Hgood as [Hrest Hst]. rewrite Forall_singleton in Hst.
  rewrite sum_list_with_app in Hfuel.
  change (sum_list_with weight [st]) with (weight st + 0)%nat in Hfuel.
  destruct (join_path_spec st.2 Hm) as (w0 & Hjoin & Hsp0); [apply Hst|].
  rewrite while_stack_S, (stack_turn_snoc rest st found w0 Hjoin), bind_Ok.
  set (stack' := if decide (w0 ∈ prefixes self)
                 then rest ++ (result st <$> actions self st) else rest).
  set (found1 := if decide (w0 ∈ dictionary self) then {[w0]} ∪ found else found).
  assert (Forall good stack') as Hgood'.
  { unfold stack'. case_decide; [|done]. apply Forall_app. split; [done|].
    apply Forall_fmap, Forall_forall. intros n Hn.
    destruct st as [[x y] path]. by apply good_child. }
  assert (sum_list_with weight stack' < fuel)%nat as Hfuel'.
  { unfold stack'. case_decide.
    - rewrite sum_list_with_app. pose proof (weight_children st Hst). lia.
    - pose proof (tree_size_pos (budget - length st.2)) as Hpos.
      change (tree_size (budget - length st.2)) with (weight st) in Hpos. lia. }
  assert (∀ s, s ∈ rest → s ∈ stack') as Hkeep.
  { intros s Hs. unfold stack'. case_decide; [|done]. apply elem_of_app. by left. }
  destruct (IH stack' found1 Hgood' Hfuel') as (found' & Hrun & Hsub & Hsound & Hcompl).
  exists found'. split; [done|].
  assert (found ⊆ found1) as Hsub1 by (unfold found1; case_decide; set_solver).
  split; [set_solver|]. split.
  - intros w Hw. destruct (Hsound w Hw) as [Hw1|?]; [|by right].
    unfold found1 in Hw1. case_decide as Hd; [|by left].
    apply elem_of_union in Hw1 as [->%elem_of_singleton|?]; [|by left].
    right. split.
    + rewrite Hdict in Hd. by apply elem_of_list_to_set in Hd.
    + exists st.2. by apply good_traces.
  - intros st' path w Hst' Hprefix Htr Hw.
    apply elem_of_app in Hst' as [Hst'|Hst'].
    { apply (Hcompl st' path w); auto. }
    apply list_elem_of_singleton in Hst' as ->.
    destruct Hprefix as [k ->]. destruct Htr as (_ & Hnd & Hch & Hsp).
    apply Forall2_app_inv_l in Hsp as (w1 & w2 & Hsp1 & Hsp2 & ->).
    assert (w1 = w0) as -> by by eapply spells_functional.
    destruct k as [|n k].
    { inversion Hsp2; subst. rewrite app_nil_r in Hw |- *. apply Hsub.
      unfold found1. rewrite decide_True.
      - apply elem_of_union. left. by apply elem_of_singleton.
      - rewrite Hdict. by apply elem_of_list_to_set. }
    assert (w0 ≠ []) as Hne.
    { destruct Hst as (Hlast & _). intros ->. inversion Hsp1 as [E|]; subst.
      by rewrite <- E in Hlast. }
    assert (w0 ∈ prefixes self) as Hin.
    { rewrite Hpre. by eapply beginning_in_prefixes. }
    assert (n ∈ actions self st) as Hn.
    { destruct st as [[x y] p0]. simpl in *. apply word_actions_spec.
      destruct Hst as (Hlast & _). simpl in Hlast.
      apply last_Some in Hlast as [p1 ->]. split; [|split].
      - rewrite <- app_assoc in Hch. simpl in Hch. by eapply chain_middle.
      - inversion Hsp2 as [|n' ch k' w' Hcell _]; subst.
        apply elem_of_grid_cells. by eapply cell_at_Some.
      - apply NoDup_app in Hnd as (_ & Hdisj & _). intros Hn.
        apply (Hdisj n Hn). by left. }
    apply (Hcompl (result st n) (st.2 ++ n :: k)).
    + unfold stack'. rewrite decide_True by done.
      apply elem_of_app. right. apply list_elem_of_fmap. eauto.
    + destruct st as [[x y] p0], n as [nx ny]. simpl.
      exists k. by rewrite <- app_assoc.
    + split; [by destruct st.2|]. split; [done|]. split; [done|].
      by apply Forall2_app.
    + done.
Qed.

Lemma find_words_from_spec (words : list (list char)) (fuel : nat) (x y : Z) :
  wf words → (x, y) ∈ grid_cells (rows self) (cols self) →
  (tree_size budget < fuel)%nat →
  ∃ found, find_words_from fuel self x y = Ok found
    ∧ (∀ w, w ∈ found → w ∈ words ∧ ∃ path, traces (board self) path w)
    ∧ (∀ path w, head path = Some (x, y) → traces (board self) path w →
                 w ∈ words → w ∈ found).
Proof.
  intros Hwf Hxy Hfuel.
  destruct (while_stack_spec words fuel Hwf [(x, y, [(x, y)])] ∅)
    as (found & Hrun & _ & Hsound & Hcompl).
  { apply Forall_singleton. split; [done|]. split; [apply NoDup_singleton|].
    split; [apply chain_single|]. by apply Forall_singleton. }
  { change (sum_list_with weight [(x, y, [(x, y)])])
      with (tree_size (budget - 1) + 0)%nat.
    pose proof (tree_size_mono (budget - 1) budget). lia. }
  exists found. split; [done|]. split.
  - intros w Hw. destruct (Hsound w Hw) as [?|?]; [set_solver|done].
  - intros path w Hhead Htr Hw.
    apply (Hcompl (x, y, [(x, y)]) path w); [by left| |done|done].
    destruct path as [|s path]; [done|]. simpl in Hhead. inversion Hhead; subst.
    by exists path.
Qed.

Lemma find_all_loop_spec (words : list (list char)) (fuel : nat)
    (cs : list (Z * Z)) :
  wf words → (tree_size budget < fuel)%nat →
  (∀ s, s ∈ cs → s ∈ grid_cells (rows self) (cols self)) →
  ∃ found,
    foldl (λ acc '(x, y),
             found_words ← acc;
             ws ← find_words_from fuel self x y;
             Ok (found_words ∪ ws))
          (Ok ∅) cs = Ok found
    ∧ (∀ w, w ∈ found → w ∈ words ∧ ∃ path, traces (board self) path w)
    ∧ (∀ s path w, s ∈ cs → head path = Some s →
                   traces (board self) path w → w ∈ words → w ∈ found).
Proof.
  intros Hwf Hfuel. induction cs as [|[x y] cs IH] using rev_ind; intros Hcs.
  { exists ∅. split; [done|]. split; [set_solver|].
    intros s path w Hs. by apply elem_of_nil in Hs. }
  destruct IH as (found & Hfold & Hsound & Hcompl).
  { intros s Hs. apply Hcs, elem_of_app. by left. }
  destruct (find_words_from_spec words fuel x y Hwf) as (ws & Hws & Hsound' & Hcompl').
  { apply Hcs, elem_of_app. right. by left. }
  { done. }
  rewrite foldl_snoc, Hfold, bind_Ok, Hws, bind_Ok.
  exists (found ∪ ws). split; [done|]. split.
  - intros w [Hw|Hw]%elem_of_union; auto.
  - intros s path w Hs Hhead Htr Hw. apply elem_of_union.
    apply elem_of_app in Hs as [Hs|Hs].
    + left. by apply (Hcompl s path w).
    + apply list_elem_of_singleton in Hs as ->. right.
      by apply (Hcompl' path w).
Qed.

Lemma find_all_words_spec (words : list (list char)) (fuel : nat) :
  wf words → (tree_size budget < fuel)%nat →
  ∃ found, find_all_words fuel self = Ok found
    ∧ ∀ w, w ∈ found ↔ w ∈ words ∧ ∃ path, traces (board self) path w.
Proof.
  intros Hwf Hfuel.
  destruct (find_all_loop_spec words fuel
              (product (range (rows self)) (range (cols self))) Hwf Hfuel)
    as (found & Hfold & Hsound & Hcompl).
  { intros s Hs. unfold grid_cells. by apply elem_of_list_to_set. }
  exists found. split; [done|]. intros w. split; [apply Hsound|].
  intros [Hw (path & Htr)].
  destruct path as [|s path]; [by destruct Htr|].
  apply (Hcompl s (s :: path) w); [|done..].
  destruct Hwf as (Hm & _). destruct Htr as (_ & _ & _ & Hsp).
  apply spells_in_grid in Hsp; [|done].
  apply Forall_cons in Hsp as [Hs _].
  unfold grid_cells in Hs. by apply elem_of_list_to_set in Hs.
Qed.
End Facts.

Section Claims.
Context {char : Type} `{Countable char}.

Lemma word_init_spec (board : list (list char)) (words : list (list char))
    (nr nc : Z) :
  rectangular board nr nc →
  ∃ self, init board words = Ok self ∧ board = WordMatrix.board self
          ∧ wf self words
          ∧ (budget self ≤ Z.to_nat nr * Z.to_nat nc)%nat.
Proof.
  intros Hm. pose proof Hm as [Hrows Hcols]. unfold init. rewrite <- Hrows.
  destruct (decide (0 < nr)) as [Hnr|Hnr].
  - destruct (rectangular_first_row board nr nc Hm Hnr) as (row0 & _ & -> & Hlen).
    assert ((0 <? nr) = true) as -> by lia.
    rewrite bind_Ok, Hlen, bind_Ok. eexists. split; [done|].
    split; [done|]. split; [by repeat split|]. unfold budget. simpl. lia.
  - assert ((0 <? nr) = false) as -> by lia. rewrite bind_Ok.
    eexists. split; [done|]. split; [done|]. split.
    + repeat split; simpl; [done|].
      assert (board = []) as -> by (destruct board; [done|simpl in Hrows; lia]).
      constructor.
    + unfold budget. simpl. lia.
Qed.

(** C5.  For every rectangular board and every list of words, the
    search returns (given fuel for the tree of paths) a set that holds
    a word exactly when the word is in the dictionary and can be read
    along a non-empty path of the board whose successive cells touch by
    a side or a corner and that visits no cell twice. *)
Theorem word_search_exact (board : list (list char))
    (words : list (list char)) (nr nc : Z) (fuel : nat) :
  rectangular board nr nc →
  (tree_size (Z.to_nat nr * Z.to_nat nc) < fuel)%nat →
  ∃ found, word_search fuel board words = Ok found
    ∧ ∀ w, w ∈ found ↔ w ∈ words ∧ ∃ path, traces board path w.
Proof.
  intros Hm Hfuel.
  destruct (word_init_spec board words nr nc Hm) as (self & Hinit & -> & Hwf & Hbudget).
  unfold word_search. rewrite Hinit, bind_Ok.
  apply find_all_words_spec; [done|].
  eapply Nat.le_lt_trans; [|apply Hfuel]. by apply tree_size_mono.
Qed.
End Claims.

(** *** A small board *)

Definition cats : list (list ascii) := [["C"; "A"]; ["S"; "T"]]%char.

Definition pets : list (list ascii) :=
  [["C"; "A"; "T"]; ["D"; "O"; "G"]; ["C"; "A"; "T"; "S"]; ["A"; "C"; "A"]]%char.

Lemma cats_rectangular : rectangular cats 2 2.
Proof. split; [done|]. by repeat constructor. Qed.

Example cats_found :
  word_search 100 cats pets
  = Ok ({[ ["C"; "A"; "T"]%char; ["C"; "A"; "T"; "S"]%char ]}).
Proof. by vm_compute. Qed.

Lemma word_search_exact_witness :
  rectangular cats 2 2
  ∧ (tree_size (Z.to_nat 2 * Z.to_nat 2) < 5000)%nat
  ∧ ∃ found, word_search 5000 cats pets = Ok found
      ∧ ∀ w, w ∈ found ↔ w ∈ pets ∧ ∃ path, traces cats path w.
Proof.
  split; [exact cats_rectangular|]. split; [vm_compute; lia|].
  apply (word_search_exact cats pets 2 2 5000).
  - exact cats_rectangular.
  - vm_compute. lia.
Defined.

End WordMatrixFacts.

(* ===================================================================== *)
(** * Part III: further properties of the programs                       *)
(* ===================================================================== *)

(* --------------------------------------------------------------------- *)
(** ** DFS.py: nodes, paths and the search                               *)
(* --------------------------------------------------------------------- *)

Module DFSMore.
Import DFS DFSFacts.

Section More.
Context {State Action : Type} `{Countable State}.
Variable p : Problem State Action.

(** The states above a node, from the root down to its parent. *)
Definition ancestors (n : Node State Action) : list State :=
  path_states (parent n).

Lemma path_states_ancestors (n : Node State Action) :
  path_states (Some n) = ancestors n ++ [state n].
Proof. destruct n as [s [q|] a c]; reflexivity. Qed.

Lemma ancestors_child (n c : Node State Action) :
  c ∈ expand p n → ancestors c = path_states (Some n).
Proof.
  unfold expand. intros (a & -> & _)%list_elem_of_fmap. reflexivity.
Qed.

(** *** The returned path visits no state twice *)

(** A node waits on the frontier with all the states above it explored,
    and no state twice among them. *)
Definition waits (explored : gset State) (n : Node State Action) : Prop :=
  NoDup (ancestors n) ∧ ∀ s, s ∈ ancestors n → s ∈ explored.

Lemma waits_mono (E E' : gset State) n : E ⊆ E' → waits E n → waits E' n.
Proof. intros Hsub [Hnd Hin]. split; [done|]. intros s Hs. apply Hsub. auto. Qed.

Lemma waits_child (E : gset State) n c :
  waits E n → state n ∉ E → c ∈ expand p n → waits ({[state n]} ∪ E) c.
Proof.
  intros [Hnd Hin] Hnew Hc. unfold waits.
  rewrite (ancestors_child n c Hc), path_states_ancestors. split.
  - apply NoDup_app. split; [done|]. split; [|apply NoDup_singleton].
    intros s Hs ->%list_elem_of_singleton. auto.
  - intros s Hs. apply elem_of_app in Hs as [Hs|Hs].
    + apply elem_of_union. right. auto.
    + apply list_elem_of_singleton in Hs as ->.
      apply elem_of_union. left. by apply elem_of_singleton.
Qed.

Lemma while_frontier_simple fuel frontier explored path c :
  Forall (waits explored) frontier →
  while_frontier fuel p frontier explored = Ok (Some path, c) →
  NoDup path.
Proof.
  revert frontier explored.
  induction fuel as [|fuel IH]; intros frontier explored Hfr Hret; [done|].
  simpl in Hret.
  destruct frontier as [|node rest _] using rev_ind; [done|].
  apply Forall_app in Hfr as [Hrest Hnode]. rewrite Forall_singleton in Hnode.
  rewrite loop_body_snoc in Hret.
  destruct (decide (state node ∈ explored)) as [Hin|Hnew]; [by eapply IH|].
  destruct (is_goal p (state node)).
  - inversion Hret; subst. change (NoDup (path_states (Some node))).
    rewrite path_states_ancestors. destruct Hnode as [Hnd Hanc].
    apply NoDup_app. split; [done|]. split; [|apply NoDup_singleton].
    intros s Hs ->%list_elem_of_singleton. auto.
  - eapply IH; [|done]. apply Forall_app. split.
    + eapply Forall_impl; [done|]. intros n. apply waits_mono. set_solver.
    + apply Forall_forall. intros c' Hc'. by apply waits_child.
Qed.

(** X1.  A path that the search returns visits no state twice. *)
Theorem returned_path_simple fuel path c :
  depth_first_search fuel p = Ok (Some path, c) → NoDup path.
Proof.
  apply while_frontier_simple. apply Forall_singleton.
  split; [apply NoDup_nil_2|]. intros s Hs. by apply elem_of_nil in Hs.
Qed.

(** *** A reachable goal is found *)

(** A walk along actions from the first state to the second through
    states that are not explored. *)
Inductive open_path (E : gset State) : State → State → Prop :=
  | open_here s : s ∉ E → open_path E s s
  | open_step s a t :
      s ∉ E → a ∈ actions p s → open_path E (result p s a) t →
      open_path E s t.

Lemma open_path_source E s t : open_path E s t → s ∉ E.
Proof. by destruct 1. Qed.

Lemma open_path_snoc E s t a :
  open_path E s t → result p t a ∉ E → a ∈ actions p t →
  open_path E s (result p t a).
Proof.
  intros Hst Hnew Ha. induction Hst as [s Hs|s b t Hs Hb _ IH].
  - eapply open_step; [done..|]. by apply open_here.
  - eapply open_step; [done..|]. by apply IH.
Qed.

Lemma reachable_open t : reachable p t → open_path ∅ (initial p) t.
Proof.
  induction 1 as [|s a _ IH Ha].
  - apply open_here. set_solver.
  - apply open_path_snoc; [done|set_solver|done].
Qed.

(** When a state is explored, a walk that avoided the explored states
    still does, or goes on from a child of the new state. *)
Lemma open_path_explore E s m t :
  open_path E m t → t ≠ s →
  open_path ({[s]} ∪ E) m t
  ∨ ∃ a, a ∈ actions p s ∧ open_path ({[s]} ∪ E) (result p s a) t.
Proof.
  intros Hmt Hts. induction Hmt as [m Hm|m a t Hm Ha _ IH].
  - left. apply open_here. set_solver.
  - destruct (IH Hts) as [Hrest|?]; [|by right].
    destruct (decide (m = s)) as [->|Hms].
    + right. eauto.
    + left. eapply open_step; [set_solver|done..].
Qed.

(** The loop does not give up while an unexplored walk leads from the
    frontier to a goal. *)
Lemma while_frontier_finds fuel frontier explored t c :
  is_goal p t = true →
  (∀ s, s ∈ explored → is_goal p s = false) →
  (∃ n, n ∈ frontier ∧ open_path explored (state n) t) →
  while_frontier fuel p frontier explored ≠ Ok (None, c).
Proof.
  intros Hgoal. revert frontier explored.
  induction fuel as [|fuel IH]; intros frontier explored Hexp (n & Hn & Hpath); [done|].
  simpl. destruct frontier as [|node rest _] using rev_ind.
  { by apply elem_of_nil in Hn. }
  rewrite loop_body_snoc.
  destruct (decide (state node ∈ explored)) as [Hin|Hnew].
  { apply IH; [done|]. exists n. split; [|done].
    apply elem_of_app in Hn as [?|Hn]; [done|].
    apply list_elem_of_singleton in Hn as ->.
    by apply open_path_source in Hpath. }
  destruct (is_goal p (state node)) eqn:Hnode; [done|].
  apply IH.
  { intros s [->%elem_of_singleton|?]%elem_of_union; auto. }
  assert (t ≠ state node) as Hne by congruence.
  destruct (open_path_explore explored (state node) (state n) t Hpath Hne)
    as [Hopen|(a & Ha & Hopen)].
  - exists n. split; [|done]. apply elem_of_app. left.
    apply elem_of_app in Hn as [?|Hn]; [done|].
    apply list_elem_of_singleton in Hn as ->.
    apply open_path_source in Hopen. set_solver.
  - exists (mkNode (result p (state node) a) (Some node) (Some a)
              (path_cost node
               + action_cost p (state node) a (result p (state node) a))).
    split; [|exact Hopen].
    apply elem_of_app. right. unfold expand. apply list_elem_of_fmap.
    exists a. done.
Qed.

(** On a finite state space the loop returns. *)
Lemma while_frontier_total (S : gset State) fuel frontier explored :
  (∀ s, reachable p s → s ∈ S) →
  Forall (search_node p) frontier →
  (length frontier + pending p S explored < fuel)%nat →
  ∃ r, while_frontier fuel p frontier explored = Ok r.
Proof.
  intros HS. revert frontier explored.
  induction fuel as [|fuel IH]; intros frontier explored Hfr Hfuel; [lia|].
  simpl. destruct frontier as [|node rest _] using rev_ind; [by eexists|].
  apply Forall_app in Hfr as [Hrest Hnode]. rewrite Forall_singleton in Hnode.
  rewrite length_app in Hfuel. simpl in Hfuel.
  rewrite loop_body_snoc.
  destruct (decide (state node ∈ explored)) as [Hin|Hout].
  { apply IH; [done|lia]. }
  destruct (is_goal p (state node)); [by eexists|].
  apply IH.
  - apply Forall_app. split; [done|].
    apply Forall_forall. intros c' Hc'. by eapply search_child.
  - pose proof (search_node_reachable p _ Hnode) as Hreach.
    rewrite (pending_explore p S explored (state node)) in Hfuel by auto.
    rewrite length_app, length_expand. lia.
Qed.

(** X2.  On a finite state space, when some state that satisfies [is_goal]
    can be reached from the initial state, the search returns a path (and
    a finite cost), for every amount of fuel above a bound. *)
Theorem reachable_goal_found (S : gset State) (t : State) :
  initial p ∈ S →
  (∀ s a, s ∈ S → a ∈ actions p s → result p s a ∈ S) →
  reachable p t → is_goal p t = true →
  ∃ fuel0, ∀ fuel, (fuel0 ≤ fuel)%nat →
    ∃ path c, depth_first_search fuel p = Ok (Some path, Finite c).
Proof.
  intros Hinit Hclosed Ht Hgoal. exists (2 + pending p S ∅)%nat.
  intros fuel Hfuel.
  assert (∀ s, reachable p s → s ∈ S) as HS by (induction 1; auto).
  destruct (while_frontier_total S fuel [root (initial p)] ∅ HS) as [[o c] Hrun].
  { apply Forall_singleton. constructor. }
  { simpl. lia. }
  destruct o as [path|].
  - destruct (while_frontier_returns p fuel [root (initial p)] ∅ path c)
      as (n & _ & _ & _ & ->); [apply Forall_singleton; constructor|done|].
    exists path, (path_cost n). done.
  - exfalso. apply (while_frontier_finds fuel [root (initial p)] ∅ t c Hgoal).
    + set_solver.
    + exists (root (initial p)). split; [by left|]. by apply reachable_open.
    + done.
Qed.

(** *** Actions and costs along the parent chain *)

Lemma search_node_parent n q :
  search_node p n → parent n = Some q → search_node p q.
Proof.
  destruct 1 as [|n c Hn Hc]; [done|].
  unfold expand in Hc. apply list_elem_of_fmap in Hc as (a & -> & _).
  simpl. by intros [= <-].
Qed.

(** X3.  For a node built by the search, [path_actions] is the list of the
    actions taken from the initial state: they are legal there, replaying
    them gives [path_states], which has one state more than there are
    actions. *)
Theorem path_actions_replay n :
  search_node p n →
  ∃ acts, path_actions n = Some <$> acts
          ∧ legal p (initial p) acts
          ∧ path_states (Some n) = follows p (initial p) acts
          ∧ length (path_states (Some n)) = Datatypes.S (length (path_actions n)).
Proof.
  intros Hn.
  assert (∃ acts, path_actions n = Some <$> acts
                  ∧ legal p (initial p) acts
                  ∧ path_states (Some n) = follows p (initial p) acts
                  ∧ state n = end_state p (initial p) acts)
    as (acts & Hacts & Hlegal & Hpath & _).
  { induction Hn as [|n c Hn (acts & Hacts & Hlegal & Hpath & Hstate) Hc].
    { exists []. done. }
    unfold expand in Hc. apply list_elem_of_fmap in Hc as (a & -> & Ha).
    exists (acts ++ [a]). split; [|split; [|split]].
    - simpl. by rewrite Hacts, fmap_app.
    - apply legal_snoc. split; [done|]. by rewrite <- Hstate.
    - rewrite follows_snoc, <- Hpath, <- Hstate. reflexivity.
    - by rewrite end_state_snoc, <- Hstate. }
  exists acts. split; [done|]. split; [done|]. split; [done|].
  rewrite Hpath, Hacts, length_fmap.
  clear. generalize (initial p). induction acts as [|a acts IH]; intros s; [done|].
  simpl. by rewrite IH.
Qed.

(** X4.  When no action has a negative cost, the cost recorded in a node
    built by the search is not negative and not below that of its parent;
    the root records 0; and the cost that the search returns with a path
    is not negative. *)
Theorem path_cost_monotone :
  (∀ s a s1, 0 ≤ action_cost p s a s1) →
  (∀ n, search_node p n →
        0 ≤ path_cost n
        ∧ match parent n with
          | Some q => search_node p q ∧ path_cost q ≤ path_cost n
          | None => path_cost n = 0
          end)
  ∧ (∀ fuel path c,
       depth_first_search fuel p = Ok (Some path, Finite c) → 0 ≤ c).
Proof.
  intros Hcost.
  assert (∀ n, search_node p n →
            0 ≤ path_cost n
            ∧ match parent n with
              | Some q => search_node p q ∧ path_cost q ≤ path_cost n
              | None => path_cost n = 0
              end) as Hnodes.
  { induction 1 as [|n c Hn [IH _] Hc]; [done|].
    unfold expand in Hc. apply list_elem_of_fmap in Hc as (a & -> & _).
    simpl. specialize (Hcost (state n) a (result p (state n) a)).
    split; [lia|]. split; [done|lia]. }
  split; [done|]. intros fuel path c Hret.
  apply while_frontier_returns in Hret as (n & Hn & _ & _ & E).
  - inversion E; subst. by apply Hnodes.
  - apply Forall_singleton. constructor.
Qed.
End More.

(** *** [ItalyGraphProblem]: missing keys *)

Section ItalyMore.
Context {State : Type} `{Countable State}.
Variables (graph : gmap State (list (State * Z))) (start goal : State).

(** X5.  A state that is not a key of the graph has no children, and for
    every child that [expand] builds the subscript [graph[s][s1]] of
    [action_cost] finds its key: it gives the cost by which the child's
    path cost exceeds that of the node. *)
Theorem italy_expand_costs (node : Node State State) :
  (graph !! state node = None →
   expand (ItalyGraphProblem graph start goal) node = [])
  ∧ (∀ c, c ∈ expand (ItalyGraphProblem graph start goal) node →
          italy_graph_cost graph (state node) (state c)
          = Some (path_cost c - path_cost node)).
Proof.
  split.
  - intros Hmiss. unfold expand. simpl. unfold italy_actions. by rewrite Hmiss.
  - intros c Hc. unfold expand in Hc. apply list_elem_of_fmap in Hc as (a & -> & Ha).
    simpl in *. unfold italy_actions in Ha. unfold italy_graph_cost, italy_cost.
    destruct (graph !! state node) as [d|]; [|by apply elem_of_nil in Ha]. simpl.
    apply list_elem_of_fmap in Ha as ([a' c'] & E & Hin). simpl in E. subst a'.
    destruct (list_find_elem_of (λ kv : State * Z, kv.1 = a) d (a, c') Hin eq_refl)
      as [[i kv] Hfind].
    rewrite Hfind. simpl. f_equal. lia.
Qed.

(** X6.  When the initial state is not a key of the graph, the search ends
    at once: with [(None, math.inf)] if it is not the goal, with the path
    of the initial state alone and cost 0 if it is. *)
Theorem italy_unknown_start :
  graph !! start = None →
  (start ≠ goal →
   ∀ fuel, depth_first_search (2 + fuel) (ItalyGraphProblem graph start goal)
           = Ok (None, Infinity))
  ∧ (start = goal →
     ∀ fuel, depth_first_search (1 + fuel) (ItalyGraphProblem graph start goal)
             = Ok (Some [start], Finite 0)).
Proof.
  intros Hmiss. split; intros Hgoal fuel; unfold depth_first_search; simpl;
    change [root start] with ([] ++ [root start] : list (Node State State));
    rewrite loop_body_snoc; simpl.
  - rewrite decide_False by set_solver.
    rewrite bool_decide_eq_false_2 by done.
    unfold expand. simpl. unfold italy_actions. rewrite Hmiss. reflexivity.
  - rewrite decide_False by set_solver.
    rewrite bool_decide_eq_true_2 by done. reflexivity.
Qed.
End ItalyMore.

(** *** Instances *)

(** The base class on its own terms: unit costs and the default goal
    test, on the states 0, 1, 2, 3 in a row. *)
Definition row_of_four : Problem nat nat :=
  {| initial := 0%nat;
     actions := λ s, if decide (s < 3)%nat then [Datatypes.S s] else [];
     result := λ _ a, a;
     action_cost := λ _ _ _, 1;
     is_goal := λ s, bool_decide (s = 3%nat) |}.

Lemma towns_closed_milan s a :
  s ∈ towns → a ∈ actions to_milan s → result to_milan s a ∈ towns.
Proof. apply towns_closed. Qed.

Lemma milan_reachable : reachable to_milan "Milan"%string.
Proof.
  apply (reachable_step to_milan "Novara"%string "Milan"%string).
  - apply (reachable_step to_milan "Turin"%string "Novara"%string).
    + apply reachable_initial.
    + right. left.
  - right. left.
Qed.

Lemma novara_search_node : search_node to_rome node_novara.
Proof.
  eapply search_child; [apply search_root|].
  unfold expand. apply list_elem_of_fmap. exists "Novara"%string.
  split; [reflexivity|]. right. left.
Qed.

Lemma returned_path_simple_witness :
  depth_first_search 4 to_milan
    = Ok (Some ["Turin"; "Novara"; "Milan"]%string, Finite 147)
  ∧ NoDup ["Turin"; "Novara"; "Milan"]%string.
Proof.
  split; [by vm_compute|].
  apply (returned_path_simple to_milan 4 _ (Finite 147)). by vm_compute.
Defined.

Lemma reachable_goal_found_witness :
  initial to_milan ∈ towns
  ∧ (∀ s a, s ∈ towns → a ∈ actions to_milan s → result to_milan s a ∈ towns)
  ∧ reachable to_milan "Milan"%string
  ∧ is_goal to_milan "Milan"%string = true
  ∧ ∃ fuel0, ∀ fuel, (fuel0 ≤ fuel)%nat →
      ∃ path c, depth_first_search fuel to_milan = Ok (Some path, Finite c).
Proof.
  split; [by vm_compute|]. split; [exact towns_closed_milan|].
  split; [exact milan_reachable|]. split; [reflexivity|].
  apply (reachable_goal_found to_milan towns "Milan"%string).
  - by vm_compute.
  - exact towns_closed_milan.
  - exact milan_reachable.
  - reflexivity.
Defined.

Lemma path_actions_replay_witness :
  search_node to_rome node_novara
  ∧ ∃ acts, path_actions node_novara = Some <$> acts
            ∧ legal to_rome (initial to_rome) acts
            ∧ path_states (Some node_novara) = follows to_rome (initial to_rome) acts
            ∧ length (path_states (Some node_novara))
              = Datatypes.S (length (path_actions node_novara)).
Proof.
  split; [exact novara_search_node|].
  apply (path_actions_replay to_rome node_novara). exact novara_search_node.
Defined.

Lemma path_cost_monotone_witness :
  (∀ s a s1 : nat, 0 ≤ action_cost row_of_four s a s1)
  ∧ (∀ n, search_node row_of_four n →
          0 ≤ path_cost n
          ∧ match parent n with
            | Some q => search_node row_of_four q ∧ path_cost q ≤ path_cost n
            | None => path_cost n = 0
            end)
  ∧ (∀ fuel path c,
       depth_first_search fuel row_of_four = Ok (Some path, Finite c) → 0 ≤ c).
Proof.
  split; [intros; simpl; lia|].
  apply (path_cost_monotone row_of_four). intros. simpl. lia.
Defined.

Lemma italy_unknown_start_witness :
  roads !! "Rome"%string = None
  ∧ ("Rome"%string ≠ "Milan"%string →
     ∀ fuel, depth_first_search (2 + fuel) (ItalyGraphProblem roads "Rome" "Milan")
             = Ok (None, Infinity))
  ∧ ("Rome"%string = "Milan"%string →
     ∀ fuel, depth_first_search (1 + fuel) (ItalyGraphProblem roads "Rome" "Milan")
             = Ok (Some ["Rome"%string], Finite 0)).
Proof.
  split; [reflexivity|].
  apply (italy_unknown_start roads "Rome"%string "Milan"%string). reflexivity.
Defined.

End DFSMore.

(* --------------------------------------------------------------------- *)
(** ** flood_fill.py: bounds, untouched grids, depth of the walk         *)
(* --------------------------------------------------------------------- *)

Module FloodFillMore.
Import FloodFill FloodFillFacts.

Section More.
Context {color : Type} `{EqDecision color}.
Variable self : FloodFillProblem color.
Variables (nr nc : Z) (h : store color) (m : list (list color)).

(** X7.  On a rectangular grid with at least one row [is_valid] raises
    for no coordinate, negative and too large ones included; it is true
    exactly at the coordinates inside the grid whose cell holds the target
    color; and where it is false a call of the walk returns at once and
    leaves the store as it is. *)
Theorem is_valid_bounds (x y : Z) :
  contents h (matrix self) = m → rectangular m nr nc → 0 < nr →
  ∃ b, is_valid self h x y = Ok b
       ∧ (b = true ↔ 0 ≤ x < nr ∧ 0 ≤ y < nc
                     ∧ cell_at m x y = Some (target_color self))
       ∧ (b = false → ∀ fuel, dfs (S fuel) self x y h = Ok h).
Proof.
  intros <- Hm Hnr.
  exists (bool_decide (cell_at (contents h (matrix self)) x y
                       = Some (target_color self))).
  split; [by apply (is_valid_spec self h nr nc)|]. split.
  - rewrite bool_decide_eq_true. split.
    + intros Hc. pose proof (cell_at_Some _ _ _ _ _ _ Hm Hc). tauto.
    + tauto.
  - intros Hb fuel. apply bool_decide_eq_false in Hb.
    by apply (dfs_miss self fuel nr nc x y h).
Qed.

(** X8.  When the two colors are equal, or the start cell does not hold
    the target color, [fill] returns the store exactly as it was: no cell
    of any grid is changed. *)
Theorem fill_leaves_store (sx sy : Z) (fuel : nat) :
  contents h (matrix self) = m → rectangular m nr nc →
  start_node self = (sx, sy) → 0 ≤ sx < nr → 0 ≤ sy < nc →
  target_color self = replacement_color self
  ∨ cell_at m sx sy ≠ Some (target_color self) →
  fill (S fuel) self h = Ok (matrix self, h).
Proof.
  intros <- Hm Hstart Hsx Hsy Hcase.
  destruct (decide (cell_at (contents h (matrix self)) sx sy
                    = Some (replacement_color self))) as [Hr|Hr].
  { by eapply fill_guard. }
  eapply fill_miss; [done..|].
  destruct Hcase as [E|?]; [congruence|done].
Qed.

(** X9.  When the two colors differ, the walk from any coordinate returns
    with a nesting of calls no deeper than the number of cells that hold
    the target color, plus one; it changes no list of rows and no row
    object that is not a row of the matrix; the grid keeps its shape, and
    only cells of the target color change, to the replacement color. *)
Theorem walk_depth_bound (x y : Z) :
  contents h (matrix self) = m → rectangular m nr nc → 0 < nr →
  target_color self ≠ replacement_color self →
  ∃ h' m', dfs (S (size (targets self m nr nc))) self x y h = Ok h'
        ∧ grids h' = grids h
        ∧ (∀ a, a ∉ deref_grid h (matrix self) → lines h' !! a = lines h !! a)
        ∧ contents h' (matrix self) = m'
        ∧ rectangular m' nr nc
        ∧ (size (targets self m' nr nc) ≤ size (targets self m nr nc))%nat
        ∧ ∀ r c, cell_at m' r c = cell_at m r c
                 ∨ (cell_at m r c = Some (target_color self)
                    ∧ cell_at m' r c = Some (replacement_color self)).
Proof.
  intros <- Hm Hnr Hcolors.
  destruct (dfs_spec self nr nc Hcolors Hnr
              (S (size (targets self (contents h (matrix self)) nr nc)))
              x y h Hm) as (h' & Hdfs & [[Hgrids Hlines] Hm' Hrec _ _ _]); [lia|].
  exists h', (contents h' (matrix self)).
  split; [done|]. split; [done|]. split; [done|]. split; [done|].
  split; [done|]. split; [|done].
  apply subseteq_size. by apply recolors_targets.
Qed.
End More.

Lemma is_valid_bounds_witness :
  contents ring_store (matrix ring_fill) = ring ∧ rectangular ring 3 3 ∧ 0 < 3
  ∧ ∃ b, is_valid ring_fill ring_store (-1) 5 = Ok b
         ∧ (b = true ↔ 0 ≤ -1 < 3 ∧ 0 ≤ 5 < 3
                       ∧ cell_at ring (-1) 5 = Some (target_color ring_fill))
         ∧ (b = false → ∀ fuel, dfs (S fuel) ring_fill (-1) 5 ring_store
                                = Ok ring_store).
Proof.
  split; [reflexivity|]. split; [exact ring_rectangular|]. split; [lia|].
  apply (is_valid_bounds ring_fill 3 3 ring_store ring (-1) 5).
  - reflexivity.
  - exact ring_rectangular.
  - lia.
Defined.

Lemma fill_leaves_store_witness :
  contents ring_store 7%positive = ring ∧ rectangular ring 3 3
  ∧ start_node (mkFloodFillProblem 7%positive (1, 1) "X"%string "Z"%string) = (1, 1)
  ∧ 0 ≤ 1 < 3 ∧ 0 ≤ 1 < 3
  ∧ ("X"%string = "Z"%string ∨ cell_at ring 1 1 ≠ Some "X"%string)
  ∧ fill 1 (mkFloodFillProblem 7%positive (1, 1) "X"%string "Z"%string) ring_store
    = Ok (7%positive, ring_store).
Proof.
  split; [reflexivity|]. split; [exact ring_rectangular|]. split; [reflexivity|].
  split; [lia|]. split; [lia|]. split; [right; discriminate|].
  apply (fill_leaves_store
           (mkFloodFillProblem 7%positive (1, 1) "X"%string "Z"%string)
           3 3 ring_store ring 1 1 0).
  - reflexivity.
  - exact ring_rectangular.
  - reflexivity.
  - lia.
  - lia.
  - right. discriminate.
Defined.

Lemma walk_depth_bound_witness :
  contents ring_store (matrix ring_fill) = ring ∧ rectangular ring 3 3 ∧ 0 < 3
  ∧ target_color ring_fill ≠ replacement_color ring_fill
  ∧ ∃ h' m', dfs (S (size (targets ring_fill ring 3 3))) ring_fill 0 0 ring_store
             = Ok h'
          ∧ grids h' = grids ring_store
          ∧ (∀ a, a ∉ deref_grid ring_store (matrix ring_fill) →
                  lines h' !! a = lines ring_store !! a)
          ∧ contents h' (matrix ring_fill) = m'
          ∧ rectangular m' 3 3
          ∧ (size (targets ring_fill m' 3 3) ≤ size (targets ring_fill ring 3 3))%nat
          ∧ ∀ r c, cell_at m' r c = cell_at ring r c
                   ∨ (cell_at ring r c = Some (target_color ring_fill)
                      ∧ cell_at m' r c = Some (replacement_color ring_fill)).
Proof.
  split; [reflexivity|]. split; [exact ring_rectangular|]. split; [lia|].
  split; [discriminate|].
  apply (walk_depth_bound ring_fill 3 3 ring_store ring 0 0).
  - reflexivity.
  - exact ring_rectangular.
  - lia.
  - discriminate.
Defined.

End FloodFillMore.

(* --------------------------------------------------------------------- *)
(** ** find_longest_path.py: start cells, moves, backtracking            *)
(* --------------------------------------------------------------------- *)

Module LongestPathMore.
Import FindLongestPath LongestPathFacts.

Lemma NoDup_range (n : Z) : NoDup (range n).
Proof.
  unfold range. apply NoDup_fmap_2; [|apply NoDup_seq].
  intros a b. lia.
Qed.

Lemma NoDup_product {A B : Type} (xs : list A) (ys : list B) :
  NoDup xs → NoDup ys → NoDup (product xs ys).
Proof.
  intros Hxs Hys. unfold product. apply NoDup_bind; [| |done].
  - intros x1 x2 [a b] _ _ H1 H2.
    apply list_elem_of_fmap in H1 as (? & [= -> _] & _).
    apply list_elem_of_fmap in H2 as (? & [= -> _] & _). done.
  - intros x _. apply NoDup_fmap_2; [|done]. by intros a b [= ->].
Qed.

(** X10.  On a rectangular matrix [find_start_positions] raises for no
    cell and returns, without repetition, exactly the coordinates whose
    cell holds the start character. *)
Theorem start_positions_exact (m : list (list cell)) (start : cell) (nr nc : Z) :
  rectangular m nr nc →
  ∃ l, find_start_positions m start nr nc = Ok l
       ∧ NoDup l
       ∧ ∀ s, s ∈ l ↔ cell_at m s.1 s.2 = Some start.
Proof.
  intros Hm. unfold find_start_positions.
  rewrite (filter_res_Ok _
    (λ s, match cell_at m s.1 s.2 with
          | Some x => bool_decide (x = start)
          | None => false
          end)).
  - eexists. split; [done|]. split.
    + apply NoDup_filter, NoDup_product; apply NoDup_range.
    + intros [r c]. rewrite list_elem_of_filter, elem_of_product, !elem_of_range.
      simpl. split.
      * intros [Hc _]. destruct (cell_at m r c) as [x|]; [|done].
        apply bool_decide_eq_true in Hc. by subst.
      * intros Hc. rewrite Hc. split; [by apply bool_decide_eq_true|].
        eapply cell_at_Some; [apply Hm|apply Hc].
  - intros [r c] Hrc. apply elem_of_product in Hrc as [Hr Hc].
    apply elem_of_range in Hr, Hc.
    destruct (matrix_at_cell m nr nc r c Hm Hr Hc) as (x & Hx & ->).
    simpl. rewrite Hx. done.
Qed.

Section Built.
Variables (m : list (list cell)) (start : cell) (nr nc : Z)
          (p : MatrixPathProblem).
Hypothesis Hm : rectangular m nr nc.
Hypothesis Hp : init m start = Ok p.

Lemma built_rows : 0 < nr.
Proof.
  destruct Hm as [-> _]. destruct m; [discriminate|]. simpl. lia.
Qed.

Lemma built_wf : wf p ∧ matrix p = m ∧ rows p = nr ∧ cols p = nc.
Proof.
  destruct (path_init_spec m start nr nc Hm built_rows)
    as (p' & Hp' & Hmat & Hrows & Hcols & _).
  assert (p' = p) as -> by congruence.
  split; [|done]. unfold wf. by rewrite Hmat, Hrows, Hcols.
Qed.

(** X11.  For a problem built on a rectangular matrix and a state inside
    the grid, [actions] raises for no neighbour; every action it returns
    leads to a cell inside the grid that is adjacent and holds the next
    character, and every such cell is reached by one of its actions. *)
Theorem actions_in_grid (s : coord) :
  0 ≤ s.1 < nr → 0 ≤ s.2 < nc →
  ∃ acts, actions p s = Ok acts
    ∧ (∀ a, a ∈ acts →
            0 ≤ (result s a).1 < nr ∧ 0 ≤ (result s a).2 < nc
            ∧ ascends m s (result s a))
    ∧ (∀ t, ascends m s t → ∃ a, a ∈ acts ∧ t = result s a).
Proof.
  intros Hr Hc. destruct built_wf as (Hwf & Hmat & Hrows & Hcols).
  destruct (ascending_actions_spec p s Hwf) as (acts & Hacts & Hspec).
  { apply elem_of_cells. by rewrite Hrows, Hcols. }
  rewrite Hmat in Hspec. exists acts. split; [done|]. split.
  - intros a Ha.
    assert (ascends m s (result s a)) as Hasc.
    { apply Hspec. apply list_elem_of_fmap. eauto. }
    split; [|split; [|done]];
      destruct Hasc as [_ (x & y & _ & Hy & _)];
      pose proof (cell_at_Some _ _ _ _ _ _ Hm Hy); tauto.
  - intros t Ht. apply Hspec in Ht. apply list_elem_of_fmap in Ht as (a & -> & Ha).
    eauto.
Qed.

(** X12.  Backtracking: a call of [recursive_dfs] on a cell that is not in
    the visited set returns, within a nesting of calls no deeper than the
    number of cells, a length of at least 1 and the visited set exactly as
    it received it. *)
Theorem recursive_dfs_restores (node : Node coord coord) (V : gset coord)
    (fuel : nat) :
  0 ≤ (state node).1 < nr → 0 ≤ (state node).2 < nc →
  state node ∉ V →
  (Z.to_nat nr * Z.to_nat nc ≤ fuel)%nat →
  ∃ n, recursive_dfs fuel p node V = Ok (n, V) ∧ 1 ≤ n.
Proof.
  intros Hr Hc HV Hfuel. destruct built_wf as (Hwf & Hmat & Hrows & Hcols).
  destruct (recursive_dfs_spec p fuel Hwf node V)
    as (n & Hrun & [(path & (Hhd & _) & Hlen) _]).
  - apply elem_of_cells. by rewrite Hrows, Hcols.
  - done.
  - etrans; [|apply Hfuel]. etrans; [|apply size_grid_cells].
    rewrite <- Hrows, <- Hcols. apply subseteq_size. unfold cells. set_solver.
  - exists n. split; [done|]. destruct path; [done|]. simpl in Hlen. lia.
Qed.
End Built.

(** *** Chains *)

Lemma ascending_first (m : list (list cell)) (s : coord) rest :
  ascending m (s :: rest) → is_Some (cell_at m s.1 s.2).
Proof.
  destruct rest as [|t rest]; [done|].
  intros [[_ (x & _ & Hx & _)] _]. eauto.
Qed.

Lemma ascending_codes (m : list (list cell)) rest :
  ∀ (s : coord) x, ascending m (s :: rest) → cell_at m s.1 s.2 = Some x →
    ∀ j (t : coord), (s :: rest) !! j = Some t →
                     cell_at m t.1 t.2 = Some (x + Z.of_nat j).
Proof.
  induction rest as [|t0 rest IH]; intros s x Hasc Hx j t Hj.
  { destruct j as [|j]; [|done]. simpl in Hj. inversion Hj; subst.
    rewrite Hx. f_equal. lia. }
  destruct j as [|j].
  { simpl in Hj. inversion Hj; subst. rewrite Hx. f_equal. lia. }
  destruct Hasc as [[_ (x' & y' & Hx' & Hy' & Hord)] Hrest].
  unfold ord in Hord. assert (x' = x) as -> by congruence.
  rewrite (IH t0 (x + 1) Hrest) with (j := j) (t := t); [f_equal; lia| |done].
  by rewrite Hy', Hord.
Qed.

(** A sequence of cells linked by ascending steps visits no cell twice:
    along it the characters are the successive code points. *)
Lemma ascending_simple (m : list (list cell)) (path : list coord) :
  ascending m path → NoDup path.
Proof.
  induction path as [|s rest IH]; intros Hasc; [constructor|].
  destruct (ascending_first m s rest Hasc) as [x Hx].
  apply NoDup_cons. split.
  - intros Hin. apply list_elem_of_lookup in Hin as [j Hj].
    pose proof (ascending_codes m rest s x Hasc Hx (S j) s Hj) as Hc.
    rewrite Hx in Hc. inversion Hc. lia.
  - destruct rest as [|t rest]; [constructor|]. apply IH. by destruct Hasc.
Qed.

Lemma ascending_cells (m : list (list cell)) (nr nc : Z) (path : list coord) :
  rectangular m nr nc → ascending m path →
  Forall (λ s, s ∈ grid_cells nr nc) path.
Proof.
  intros Hm. induction path as [|s rest IH]; intros Hasc; [constructor|].
  constructor.
  - destruct (ascending_first m s rest Hasc) as [x Hx].
    apply elem_of_grid_cells. by eapply cell_at_Some.
  - destruct rest as [|t rest]; [constructor|]. apply IH. by destruct Hasc.
Qed.

(** X13.  On a rectangular matrix with at least one row the search returns
    a length between 0 and the number of cells that no ascending chain
    from a start-character cell exceeds, whether the chain is asked to be
    simple or not: the visited set never cuts a chain short. *)
Theorem longest_path_bounds_chains (m : list (list cell)) (start : cell)
    (nr nc : Z) (fuel : nat) :
  rectangular m nr nc → 0 < nr → (Z.to_nat nr * Z.to_nat nc ≤ fuel)%nat →
  ∃ L, longest_path fuel m start = Ok L
       ∧ 0 ≤ L ≤ nr * nc
       ∧ ∀ s path, cell_at m s.1 s.2 = Some start → head path = Some s →
                   ascending m path → Z.of_nat (length path) ≤ L.
Proof.
  intros Hm Hnr Hfuel.
  destruct (longest_path_spec m start nr nc fuel Hm Hnr Hfuel)
    as (L & HL & [Hup Hwit]).
  exists L. split; [done|].
  assert (0 ≤ nc) as Hnc.
  { destruct (rectangular_first_row m nr nc Hm Hnr) as (row0 & _ & _ & <-). lia. }
  assert (Z.of_nat (Z.to_nat nr * Z.to_nat nc) = nr * nc) as Hcells
    by (rewrite Nat2Z.inj_mul, !Z2Nat.id; lia).
  split.
  - destruct Hwit as [(path & (s & _ & Hpath) & <-)|[-> _]].
    + split; [lia|]. destruct Hpath as (_ & Hasc & Hnd & _).
      pose proof (ascending_cells m nr nc path Hm Hasc) as Hin.
      assert (length path ≤ size (grid_cells nr nc))%nat as Hle.
      { rewrite <- (size_list_to_set (C := gset (Z * Z)) path) by done.
        apply subseteq_size. intros t Ht. apply elem_of_list_to_set in Ht.
        rewrite Forall_forall in Hin. auto. }
      pose proof (size_grid_cells nr nc). lia.
    + nia.
  - intros s path Hs Hhd Hasc. apply Hup. exists s. split; [done|].
    split; [done|]. split; [done|]. split; [by apply (ascending_simple m)|].
    intros x _. set_solver.
Qed.

(** X14.  A matrix without cells: with no row the constructor raises
    [IndexError] at [matrix[0]]; with rows of no cell the search returns 0
    whatever the start character and the fuel. *)
Theorem longest_path_no_cells (m : list (list cell)) (start : cell) (nr : Z)
    (fuel : nat) :
  rectangular m nr 0 →
  longest_path fuel m start = if decide (nr = 0) then IndexError else Ok 0.
Proof.
  intros Hm. case_decide as Hnr.
  - destruct Hm as [Hrows _]. destruct m; [done|]. simpl in Hrows. lia.
  - assert (0 < nr) as Hpos by (destruct Hm as [-> _]; lia).
    destruct (path_init_spec m start nr 0 Hm Hpos)
      as (p & Hp & _ & _ & _ & _ & Hinit).
    unfold longest_path. rewrite Hp, bind_Ok. unfold depth_first_search.
    assert (initial p = []) as ->; [|done].
    apply elem_of_nil_inv. intros s Hs. apply Hinit in Hs.
    pose proof (cell_at_Some _ _ _ _ _ _ Hm Hs). lia.
Qed.

(** *** Instances *)

Definition scenario_problem : MatrixPathProblem :=
  mkMatrixPathProblem scenario_matrix (chr "A") 2 2 [(0, 0)].

Lemma scenario_init : init scenario_matrix (chr "A") = Ok scenario_problem.
Proof. by vm_compute. Qed.

Lemma scenario_chain :
  ascending scenario_matrix [(0, 0); (0, 1); (1, 1); (1, 0)].
Proof.
  simpl. unfold ascends, adjacent8. simpl.
  repeat split; try lia; try discriminate.
  - by exists 65, 66.
  - by exists 66, 67.
  - by exists 67, 68.
  - by exists 68.
Qed.

Lemma start_positions_exact_witness :
  rectangular scenario_matrix 2 2
  ∧ ∃ l, find_start_positions scenario_matrix (chr "A") 2 2 = Ok l
         ∧ NoDup l
         ∧ ∀ s, s ∈ l ↔ cell_at scenario_matrix s.1 s.2 = Some (chr "A").
Proof.
  split; [exact scenario_rectangular|].
  apply (start_positions_exact scenario_matrix (chr "A") 2 2).
  exact scenario_rectangular.
Defined.

Lemma actions_in_grid_witness :
  rectangular scenario_matrix 2 2
  ∧ init scenario_matrix (chr "A") = Ok scenario_problem
  ∧ 0 ≤ 0 < 2 ∧ 0 ≤ 1 < 2
  ∧ ∃ acts, actions scenario_problem (0, 1) = Ok acts
      ∧ (∀ a, a ∈ acts →
              0 ≤ (result (0, 1) a).1 < 2 ∧ 0 ≤ (result (0, 1) a).2 < 2
              ∧ ascends scenario_matrix (0, 1) (result (0, 1) a))
      ∧ (∀ t, ascends scenario_matrix (0, 1) t →
              ∃ a, a ∈ acts ∧ t = result (0, 1) a).
Proof.
  split; [exact scenario_rectangular|]. split; [exact scenario_init|].
  split; [lia|]. split; [lia|].
  apply (actions_in_grid scenario_matrix (chr "A") 2 2 scenario_problem
           scenario_rectangular scenario_init (0, 1)); simpl; lia.
Defined.

Lemma recursive_dfs_restores_witness :
  rectangular scenario_matrix 2 2
  ∧ init scenario_matrix (chr "A") = Ok scenario_problem
  ∧ 0 ≤ 0 < 2 ∧ 0 ≤ 1 < 2
  ∧ ((0, 1) ∉ ({[(0, 0)]} : gset (Z * Z)))
  ∧ (Z.to_nat 2 * Z.to_nat 2 ≤ 4)%nat
  ∧ ∃ n, recursive_dfs 4 scenario_problem (root (0, 1)) {[(0, 0)]}
         = Ok (n, {[(0, 0)]}) ∧ 1 ≤ n.
Proof.
  split; [exact scenario_rectangular|]. split; [exact scenario_init|].
  split; [lia|]. split; [lia|]. split; [set_solver|]. split; [simpl; lia|].
  apply (recursive_dfs_restores scenario_matrix (chr "A") 2 2 scenario_problem
           scenario_rectangular scenario_init (root (0, 1)) {[(0, 0)]} 4).
  - simpl. lia.
  - simpl. lia.
  - set_solver.
  - simpl. lia.
Defined.

Lemma longest_path_bounds_chains_witness :
  rectangular scenario_matrix 2 2 ∧ 0 < 2 ∧ (Z.to_nat 2 * Z.to_nat 2 ≤ 4)%nat
  ∧ ∃ L, longest_path 4 scenario_matrix (chr "A") = Ok L
         ∧ 0 ≤ L ≤ 2 * 2
         ∧ ∀ s path, cell_at scenario_matrix s.1 s.2 = Some (chr "A") →
                     head path = Some s →
                     ascending scenario_matrix path → Z.of_nat (length path) ≤ L.
Proof.
  split; [exact scenario_rectangular|]. split; [lia|]. split; [simpl; lia|].
  apply (longest_path_bounds_chains scenario_matrix (chr "A") 2 2 4).
  - exact scenario_rectangular.
  - lia.
  - simpl. lia.
Defined.

Lemma longest_path_no_cells_witness :
  rectangular ([[]; []] : list (list Z)) 2 0
  ∧ longest_path 0 [[]; []] (chr "A") = if decide (2 = 0) then IndexError else Ok 0.
Proof.
  assert (rectangular ([[]; []] : list (list Z)) 2 0) as Hm
    by (split; [done|by repeat constructor]).
  split; [exact Hm|].
  apply (longest_path_no_cells [[]; []] (chr "A") 2 0). exact Hm.
Defined.

End LongestPathMore.

(* --------------------------------------------------------------------- *)
(** ** More on the word search (word_matrix.py)                          *)
(* --------------------------------------------------------------------- *)

Module WordMatrixMore.
Import WordMatrix WordMatrixFacts.

(** The eight directions are the moves of a chess king. *)
Lemma adjacent8_king (s t : Z * Z) :
  adjacent8 s t
  ↔ t ≠ s ∧ Z.abs (t.1 - s.1) ≤ 1 ∧ Z.abs (t.2 - s.2) ≤ 1.
Proof.
  destruct s as [x y], t as [nx ny]. unfold adjacent8, directions. simpl. split.
  - intros (d & Hd & E).
    repeat (apply elem_of_cons in Hd as [->|Hd]);
      try (by apply elem_of_nil in Hd);
      simpl in E; inversion E; subst; (split; [intros E'; inversion E'; lia|lia]).
  - intros (Hne & Hx & Hy).
    assert (nx - x = -1 ∨ nx - x = 0 ∨ nx - x = 1) as Hdx by lia.
    assert (ny - y = -1 ∨ ny - y = 0 ∨ ny - y = 1) as Hdy by lia.
    exists (nx - x, ny - y). split.
    + destruct Hdx as [Ex|[Ex|Ex]], Hdy as [Ey|[Ey|Ey]]; rewrite Ex, Ey;
        try (repeat (first [by left | right]); fail).
      destruct Hne. f_equal; lia.
    + simpl. f_equal; lia.
Qed.

Lemma product_nil_r {A B : Type} (xs : list A) :
  product xs ([] : list B) = [].
Proof. unfold product. induction xs as [|x xs IH]; [done|]. exact IH. Qed.

Section More.
Context {char : Type} `{Countable char}.

Lemma word_search_traces (board : list (list char))
    (words : list (list char)) (nr nc : Z) (fuel : nat) :
  rectangular board nr nc →
  (tree_size (Z.to_nat nr * Z.to_nat nc) < fuel)%nat →
  ∃ found, word_search fuel board words = Ok found
    ∧ ∀ w, w ∈ found ↔ w ∈ words ∧ ∃ path, traces board path w.
Proof.
  intros Hm Hfuel.
  destruct (word_init_spec board words nr nc Hm)
    as (self & Hinit & -> & Hwf & Hbudget).
  unfold word_search. rewrite Hinit, bind_Ok.
  apply find_all_words_spec; [done|].
  eapply Nat.le_lt_trans; [|apply Hfuel]. by apply tree_size_mono.
Qed.

(** A path that traces a word has as many cells as the word has letters,
    and no more cells than the board. *)
Lemma traces_length (board : list (list char)) (nr nc : Z)
    (path : list (Z * Z)) (w : list char) :
  rectangular board nr nc → traces board path w →
  w ≠ [] ∧ (length w ≤ Z.to_nat nr * Z.to_nat nc)%nat.
Proof.
  intros Hm (Hne & Hnd & _ & Hsp).
  pose proof (Forall2_length _ _ _ Hsp) as Hlen. split.
  - intros ->. destruct path; [done|simpl in Hlen; lia].
  - rewrite <- Hlen. etrans; [|apply size_grid_cells].
    rewrite <- (size_list_to_set (C := gset (Z * Z)) path) by done.
    apply subseteq_size. intros s Hs. apply elem_of_list_to_set in Hs.
    apply elem_of_grid_cells.
    apply list_elem_of_lookup in Hs as [i Hi].
    destruct (Forall2_lookup_l _ _ _ _ _ Hsp Hi) as (ch & _ & Hch).
    by eapply cell_at_Some.
Qed.

(** The fold of [find_all_words] over start cells whose searches all end
    with nothing. *)
Lemma find_all_loop_empty (fuel : nat) (self : MatrixWordSearchProblem char)
    (cs : list (Z * Z)) :
  (∀ s, s ∈ cs → find_words_from fuel self s.1 s.2 = Ok ∅) →
  foldl (λ acc '(x, y),
           found_words ← acc;
           ws ← find_words_from fuel self x y;
           Ok (found_words ∪ ws))
        (Ok ∅) cs = Ok ∅.
Proof.
  induction cs as [|[x y] cs IH]; intros Hcs; [done|].
  pose proof (Hcs (x, y) ltac:(by left)) as Hxy. simpl in Hxy.
  cbn [foldl]. rewrite bind_Ok, Hxy, bind_Ok, (left_id_L ∅ (∪)). apply IH.
  intros s Hs. apply Hcs. by right.
Qed.

(** X15.  The prefix set built from the dictionary holds exactly the
    non-empty beginnings of its words (the words themselves included, the
    empty string never). *)
Theorem prefix_set_exact (words : list (list char)) (u : list char) :
  u ∈ _build_prefix_set words
  ↔ u ≠ [] ∧ ∃ w, w ∈ words ∧ u `prefix_of` w.
Proof.
  rewrite build_prefix_set_spec. split.
  - intros (w & i & Hw & Hi & ->). split.
    + destruct w; [simpl in Hi; lia|done].
    + exists w. split; [done|]. apply prefix_take.
  - intros (Hne & w & Hw & [k ->]).
    exists (u ++ k), (pred (length u)).
    assert (0 < length u)%nat by (destruct u; [done|simpl; lia]).
    split; [done|]. split; [rewrite length_app; lia|].
    replace (S (pred (length u))) with (length u) by lia.
    by rewrite take_app_length.
Qed.

(** X16.  The moves offered in a state are exactly the cells one king's
    move away from the current cell that lie on the board and are not on
    the path; there are at most eight, none is offered twice, and taking
    one appends it to the path. *)
Theorem moves_exact (self : MatrixWordSearchProblem char) (x y : Z)
    (path : list (Z * Z)) :
  (length (actions self (x, y, path)) ≤ 8)%nat
  ∧ NoDup (actions self (x, y, path))
  ∧ ∀ n : Z * Z,
      (n ∈ actions self (x, y, path)
       ↔ n ≠ (x, y) ∧ Z.abs (n.1 - x) ≤ 1 ∧ Z.abs (n.2 - y) ≤ 1
         ∧ 0 ≤ n.1 < rows self ∧ 0 ≤ n.2 < cols self ∧ n ∉ path)
      ∧ result (x, y, path) n = (n.1, n.2, path ++ [n]).
Proof.
  split; [apply length_actions|]. split.
  - unfold actions. apply NoDup_filter, NoDup_fmap_2_strong.
    + intros [dx dy] [dx' dy'] _ _ E. inversion E. f_equal; lia.
    + unfold directions. repeat (apply NoDup_cons; split;
        [intros Hd; repeat (apply elem_of_cons in Hd as [Hd|Hd]; [done|]);
         by apply elem_of_nil in Hd|]).
      apply NoDup_nil_2.
  - intros n. split; [|by destruct n].
    rewrite word_actions_spec, adjacent8_king, elem_of_grid_cells. simpl.
    tauto.
Qed.

(** X17.  Every word that the search returns is non-empty and has at most
    as many letters as the board has cells. *)
Theorem found_words_bounded (board : list (list char))
    (words : list (list char)) (nr nc : Z) (fuel : nat) :
  rectangular board nr nc →
  (tree_size (Z.to_nat nr * Z.to_nat nc) < fuel)%nat →
  ∃ found, word_search fuel board words = Ok found
    ∧ ∀ w, w ∈ found →
           w ∈ words ∧ w ≠ [] ∧ (length w ≤ Z.to_nat nr * Z.to_nat nc)%nat.
Proof.
  intros Hm Hfuel.
  destruct (word_search_traces board words nr nc fuel Hm Hfuel)
    as (found & Hrun & Hfound).
  exists found. split; [done|]. intros w Hw.
  apply Hfound in Hw as (Hw & path & Hpath). split; [done|].
  by eapply traces_length.
Qed.

(** X18.  Searching with two dictionaries put together finds the union of
    what each of them finds alone: words do not hide one another, and
    neither the order nor the repetition of words matters. *)
Theorem word_search_app (board : list (list char))
    (d1 d2 : list (list char)) (nr nc : Z) (fuel : nat) :
  rectangular board nr nc →
  (tree_size (Z.to_nat nr * Z.to_nat nc) < fuel)%nat →
  ∃ f1 f2, word_search fuel board d1 = Ok f1
    ∧ word_search fuel board d2 = Ok f2
    ∧ word_search fuel board (d1 ++ d2) = Ok (f1 ∪ f2).
Proof.
  intros Hm Hfuel.
  destruct (word_search_traces board d1 nr nc fuel Hm Hfuel) as (f1 & H1 & Hf1).
  destruct (word_search_traces board d2 nr nc fuel Hm Hfuel) as (f2 & H2 & Hf2).
  destruct (word_search_traces board (d1 ++ d2) nr nc fuel Hm Hfuel)
    as (f & H12 & Hf).
  exists f1, f2. split; [done|]. split; [done|]. rewrite H12. f_equal.
  apply set_eq. intros w.
  rewrite elem_of_union, Hf, Hf1, Hf2, elem_of_app. tauto.
Qed.

(** X19.  A board without cells (no rows, or rows without columns) is
    accepted by the constructor and searched in no time: the result is the
    empty set whatever the dictionary and the fuel. *)
Theorem word_search_no_cells (board : list (list char))
    (words : list (list char)) (nr nc : Z) (fuel : nat) :
  rectangular board nr nc → nr = 0 ∨ nc = 0 →
  word_search fuel board words = Ok ∅.
Proof.
  intros Hm Hz. pose proof Hm as [Hrows Hcols].
  unfold word_search, init. rewrite <- Hrows.
  destruct (decide (0 < nr)) as [Hnr|Hnr].
  - destruct (rectangular_first_row board nr nc Hm Hnr) as (row0 & _ & -> & Hlen).
    assert ((0 <? nr) = true) as -> by lia.
    rewrite bind_Ok, Hlen, !bind_Ok. unfold find_all_words. simpl.
    assert (nc = 0) as -> by lia.
    change (range 0) with ([] : list Z). by rewrite product_nil_r.
  - assert ((0 <? nr) = false) as -> by lia. rewrite !bind_Ok.
    unfold find_all_words. simpl.
    assert (nr = 0) as -> by lia. done.
Qed.

(** X20.  Prefix pruning at the first letter: when no word of the dictionary
    begins with a letter of the board, every start cell is dropped after a
    single turn of the loop, so two units of fuel are enough for a board of
    any size and the result is empty. *)
Theorem word_search_pruned (board : list (list char))
    (words : list (list char)) (nr nc : Z) (fuel : nat) :
  rectangular board nr nc →
  (∀ w r c ch, w ∈ words → cell_at board r c = Some ch → head w ≠ Some ch) →
  word_search (S (S fuel)) board words = Ok ∅.
Proof.
  intros Hm Hfirst.
  destruct (word_init_spec board words nr nc Hm)
    as (self & Hinit & -> & (Hrect & Hdict & Hpre) & _).
  unfold word_search. rewrite Hinit, bind_Ok. unfold find_all_words.
  apply find_all_loop_empty. intros [x y] Hs. simpl.
  assert ((x, y) ∈ grid_cells (rows self) (cols self)) as Hin.
  { apply elem_of_grid_cells. simpl.
    apply elem_of_product in Hs as [Hx Hy].
    by apply elem_of_range in Hx, Hy. }
  destruct (join_path_spec self [(x, y)] Hrect) as (w0 & Hjoin & Hsp).
  { by apply Forall_singleton. }
  apply Forall2_cons_inv_l in Hsp as (ch & w' & Hch & Hnil & ->).
  apply Forall2_nil_inv_l in Hnil as ->. simpl in Hch.
  unfold find_words_from. rewrite while_stack_S.
  rewrite (stack_turn_snoc self [] (x, y, [(x, y)]) ∅ [ch] Hjoin), bind_Ok.
  destruct (decide ([ch] ∈ dictionary self)) as [Hd|_].
  { rewrite Hdict in Hd. apply elem_of_list_to_set in Hd.
    by destruct (Hfirst [ch] x y ch Hd Hch). }
  destruct (decide ([ch] ∈ prefixes self)) as [Hp|_]; [|done].
  rewrite Hpre in Hp. apply build_prefix_set_spec in Hp as (w & i & Hw & Hi & E).
  destruct w as [|c0 w]; [simpl in Hi; lia|].
  simpl in E. inversion E; subst c0.
  by destruct (Hfirst (ch :: w) x y ch Hw Hch).
Qed.
End More.

(** *** The small board again *)

Lemma found_words_bounded_witness :
  rectangular cats 2 2
  ∧ (tree_size (Z.to_nat 2 * Z.to_nat 2) < 5000)%nat
  ∧ ∃ found, word_search 5000 cats pets = Ok found
      ∧ ∀ w, w ∈ found →
             w ∈ pets ∧ w ≠ [] ∧ (length w ≤ Z.to_nat 2 * Z.to_nat 2)%nat.
Proof.
  split; [exact cats_rectangular|]. split; [vm_compute; lia|].
  apply (found_words_bounded cats pets 2 2 5000).
  - exact cats_rectangular.
  - vm_compute. lia.
Defined.

Lemma word_search_app_witness :
  rectangular cats 2 2
  ∧ (tree_size (Z.to_nat 2 * Z.to_nat 2) < 5000)%nat
  ∧ ∃ f1 f2, word_search 5000 cats (take 2 pets) = Ok f1
      ∧ word_search 5000 cats (drop 2 pets) = Ok f2
      ∧ word_search 5000 cats (take 2 pets ++ drop 2 pets) = Ok (f1 ∪ f2).
Proof.
  split; [exact cats_rectangular|]. split; [vm_compute; lia|].
  apply (word_search_app cats (take 2 pets) (drop 2 pets) 2 2 5000).
  - exact cats_rectangular.
  - vm_compute. lia.
Defined.

Lemma word_search_no_cells_witness :
  rectangular ([[]; []] : list (list ascii)) 2 0
  ∧ (2 = 0 ∨ 0 = 0)
  ∧ word_search 0 [[]; []] pets = Ok ∅.
Proof.
  assert (rectangular ([[]; []] : list (list ascii)) 2 0) as Hm
    by (split; [done|by repeat constructor]).
  split; [exact Hm|]. split; [by right|].
  apply (word_search_no_cells [[]; []] pets 2 0 0); [exact Hm|by right].
Defined.

Definition dogs : list (list ascii) := [["D"; "O"; "G"]]%char.

Lemma dogs_not_on_cats (w : list ascii) (r c : Z) (ch : ascii) :
  w ∈ dogs → cell_at cats r c = Some ch → head w ≠ Some ch.
Proof.
  intros ->%list_elem_of_singleton Hch.
  pose proof (cell_at_Some cats 2 2 r c ch cats_rectangular Hch) as [Hr Hc].
  assert (r = 0 ∨ r = 1) as [-> | ->] by lia;
    (assert (c = 0 ∨ c = 1) as [-> | ->] by lia);
    vm_compute in Hch; inversion Hch; done.
Qed.

Lemma word_search_pruned_witness :
  rectangular cats 2 2
  ∧ (∀ w r c ch, w ∈ dogs → cell_at cats r c = Some ch → head w ≠ Some ch)
  ∧ word_search 2 cats dogs = Ok ∅.
Proof.
  split; [exact cats_rectangular|]. split; [exact dogs_not_on_cats|].
  apply (word_search_pruned cats dogs 2 2 0).
  - exact cats_rectangular.
  - exact dogs_not_on_cats.
Defined.

End WordMatrixMore.
